(** * generate-license-csv.py: LICENSE-3rdparty.yml to LICENSE-3rdparty.csv

    A shallow embedding of [src/generate-license-csv.py] and the proofs of
    the properties its specification states.

    Conventions of the embedding.

    - A Python [str] is a list of code points.  The characters of the
      development are the code points U+0000..U+00FF (Latin-1), carried by
      the 8-bit type [ascii]; on that range the Unicode tables the script
      consults ([\s], [\d], [str.isalpha], [str.lower], [str.strip]) are
      finite and written out in full below.
    - The values [yaml.safe_load] hands to the script are dynamically
      typed: [value] has what the safe loader builds, which is null,
      booleans, integers, floats, strings, bytes, dates, sequences, pairs,
      sets and mappings.  An operation applied to a value of the wrong type
      raises, as in Python; a raised exception is a result [Raise e].
    - [re] is embedded as a backtracking matcher over the syntax tree of
      the one pattern the script uses; alternatives are tried in Python's
      priority order. *)

From Stdlib Require Import Ascii String.
From Stdlib Require Import List Bool Arith Lia ZArith.
From Stdlib Require Import Permutation Sorted.
From Stdlib.Strings Require Byte.
Import ListNotations.

(** * The script *)

(** ** Python strings *)

Module Py.

Definition str := list ascii.

(** A string literal of the source. *)
Definition L (s : string) : str := list_ascii_of_string s.

Definition ord (c : ascii) : nat := nat_of_ascii c.

Definition between (lo hi : nat) (c : ascii) : bool :=
  (lo <=? ord c) && (ord c <=? hi).

Definition chr_eqb (a b : ascii) : bool := Ascii.eqb a b.

(** [Py_UNICODE_ISSPACE] on U+0000..U+00FF: TAB..CR, FS..US, SPACE, NEL,
    NBSP.  It is the class [\s] of [re] and the set [str.strip] removes. *)
Definition isspace (c : ascii) : bool :=
  between 9 13 c || between 28 32 c || (ord c =? 133) || (ord c =? 160).

(** [\d]: the decimal digits (category Nd) below U+0100 are 0..9. *)
Definition isdecimal (c : ascii) : bool := between 48 57 c.

(** [str.isalpha] below U+0100: the letters of Basic Latin and Latin-1. *)
Definition isalpha (c : ascii) : bool :=
  between 65 90 c || between 97 122 c
  || (ord c =? 170) || (ord c =? 181) || (ord c =? 186)
  || between 192 214 c || between 216 246 c || between 248 255 c.

(** [str.lower] on one code point below U+0100. *)
Definition lower_chr (c : ascii) : ascii :=
  if between 65 90 c || between 192 214 c || between 216 222 c
  then ascii_of_nat (ord c + 32)
  else c.

Definition lower (s : str) : str := map lower_chr s.

Fixpoint str_eqb (a b : str) : bool :=
  match a, b with
  | [], [] => true
  | x :: a', y :: b' => chr_eqb x y && str_eqb a' b'
  | _, _ => false
  end.

Fixpoint startswith (p s : str) : bool :=
  match p, s with
  | [], _ => true
  | x :: p', y :: s' => chr_eqb x y && startswith p' s'
  | _ :: _, [] => false
  end.

(** [needle in hay] on strings. *)
Fixpoint str_in (needle hay : str) : bool :=
  startswith needle hay
  || match hay with
     | [] => false
     | _ :: hay' => str_in needle hay'
     end.

(** [s < t] on strings: lexicographic on code points. *)
Fixpoint str_ltb (s t : str) : bool :=
  match s, t with
  | _, [] => false
  | [], _ :: _ => true
  | x :: s', y :: t' =>
      (ord x <? ord y) || ((ord x =? ord y) && str_ltb s' t')
  end.

Fixpoint lstrip_by (p : ascii -> bool) (s : str) : str :=
  match s with
  | c :: s' => if p c then lstrip_by p s' else s
  | [] => []
  end.

Definition rstrip_by (p : ascii -> bool) (s : str) : str :=
  rev (lstrip_by p (rev s)).

(** [s.strip()] *)
Definition strip (s : str) : str := rstrip_by isspace (lstrip_by isspace s).

(** [s.rstrip(chars)] *)
Definition rstrip (chars : str) (s : str) : str :=
  rstrip_by (fun c => existsb (chr_eqb c) chars) s.

(** [s.replace(a, b)] for one-character [a] and [b]. *)
Definition replace (a b : ascii) (s : str) : str :=
  map (fun c => if chr_eqb c a then b else c) s.

(** [len(s) > 0], the truth value of a string. *)
Definition nonempty (s : str) : bool :=
  match s with [] => false | _ :: _ => true end.

(** A Python [bytes] is a list of bytes. *)
Definition bytes := list Byte.byte.

Fixpoint bytes_eqb (a b : bytes) : bool :=
  match a, b with
  | [], [] => true
  | x :: a', y :: b' => Byte.eqb x y && bytes_eqb a' b'
  | _, _ => false
  end.

(** [b.lower()] on bytes: the letters A..Z of ASCII only. *)
Definition lower_byte (x : Byte.byte) : Byte.byte :=
  let n := Byte.to_nat x in
  if (65 <=? n) && (n <=? 90)
  then match Byte.of_nat (n + 32) with Some y => y | None => x end
  else x.

Definition lower_bytes (b : bytes) : bytes := map lower_byte b.

(** [a < b] on bytes: lexicographic on the values of the bytes. *)
Fixpoint bytes_ltb (a b : bytes) : bool :=
  match a, b with
  | _, [] => false
  | [], _ :: _ => true
  | x :: a', y :: b' =>
      (Byte.to_nat x <? Byte.to_nat y)
      || ((Byte.to_nat x =? Byte.to_nat y) && bytes_ltb a' b')
  end.

End Py.
Import Py.

(** ** The fragment of [re] the script uses *)

Module Re.

(** Syntax of patterns.  Repetition is over a character class, which is all
    the pattern of the script needs; [Opt] is the greedy [(?:r)?]. *)
Inductive regex : Type :=
| Str (s : str)                              (* a literal string *)
| Cls (p : ascii -> bool)                    (* [...], \s, \d *)
| Cat (r1 r2 : regex)                        (* r1 r2 *)
| Alt (r1 r2 : regex)                        (* r1|r2 *)
| Opt (r : regex)                            (* (?:r)? *)
| Star (p : ascii -> bool)                   (* p* *)
| Plus (p : ascii -> bool)                   (* p+ *)
| Times (n : nat) (p : ascii -> bool)        (* p{n} *)
| Lazy (lo hi : nat) (p : ascii -> bool)     (* p{lo,hi}? *)
| Group (r : regex)                          (* (r), group 1 *)
| Eol.                                       (* $ under re.MULTILINE *)

(** A successful match at a position: the text of group 1 and the length
    of the match. *)
Definition found : Type := (str * nat)%type.

Section Matcher.

Variable A : Type.

(** The matcher runs on the input [s] that is left, [i] characters after
    the start of the match, and hands both to what follows. *)

(** [p{n}]: exactly [n] characters of the class. *)
Fixpoint exactly (p : ascii -> bool) (n : nat) (i : nat) (s : str)
    (k : nat -> str -> option A) : option A :=
  match n with
  | 0 => k i s
  | S n' =>
      match s with
      | c :: s' => if p c then exactly p n' (S i) s' k else None
      | [] => None
      end
  end.

(** Greedy [p*]: the longest run first, then one character less at a time. *)
Fixpoint greedy (p : ascii -> bool) (i : nat) (s : str)
    (k : nat -> str -> option A) : option A :=
  match s with
  | c :: s' =>
      if p c
      then match greedy p (S i) s' k with
           | Some r => Some r
           | None => k i s
           end
      else k i s
  | [] => k i []
  end.

(** Lazy [p{0,extra}?]: the continuation first, then one character more. *)
Fixpoint lazy (p : ascii -> bool) (extra : nat) (i : nat) (s : str)
    (k : nat -> str -> option A) : option A :=
  match k i s with
  | Some r => Some r
  | None =>
      match extra, s with
      | S e, c :: s' => if p c then lazy p e (S i) s' k else None
      | _, _ => None
      end
  end.

(** Backtracking matcher in continuation-passing style: [k] is the rest of
    the pattern, applied to the offset reached, the input left and the
    current text of group 1. *)
Fixpoint run (r : regex) (i : nat) (s : str) (g : option str)
    (k : nat -> str -> option str -> option A) {struct r} : option A :=
  match r with
  | Str lit =>
      if startswith lit s
      then k (i + length lit) (skipn (length lit) s) g
      else None
  | Cls p =>
      match s with
      | c :: s' => if p c then k (S i) s' g else None
      | [] => None
      end
  | Cat r1 r2 => run r1 i s g (fun j s' g' => run r2 j s' g' k)
  | Alt r1 r2 =>
      match run r1 i s g k with
      | Some x => Some x
      | None => run r2 i s g k
      end
  | Opt r1 =>
      match run r1 i s g k with
      | Some x => Some x
      | None => k i s g
      end
  | Star p => greedy p i s (fun j s' => k j s' g)
  | Plus p =>
      match s with
      | c :: s' =>
          if p c then greedy p (S i) s' (fun j s'' => k j s'' g) else None
      | [] => None
      end
  | Times n p => exactly p n i s (fun j s' => k j s' g)
  | Lazy lo hi p =>
      exactly p lo i s
        (fun j s' => lazy p (hi - lo) j s' (fun j' s'' => k j' s'' g))
  | Group r1 =>
      run r1 i s g (fun j s' _ => k j s' (Some (firstn (j - i) s)))
  | Eol =>
      match s with
      | [] => k i s g
      | c :: _ => if chr_eqb c "010" then k i s g else None
      end
  end.

End Matcher.

Arguments exactly {A} p n i s k.
Arguments greedy {A} p i s k.
Arguments lazy {A} p extra i s k.
Arguments run {A} r i s g k.

(** The match of [r] that starts at the head of [s], if there is one.
    Group 1 takes part in every match of the pattern of the script; a match
    without it is given the empty text. *)
Definition match_here (r : regex) (s : str) : option found :=
  run r 0 s None
    (fun j _ g => match g with
                  | Some g1 => Some (g1, j)
                  | None => Some ([], j)
                  end).

(** [re.finditer(r, s)], as the list of the group-1 texts of the matches:
    leftmost match first, the search resumed where the match ended.
    [skip] counts the characters still covered by the previous match; a
    match of the script's pattern is never empty. *)
Fixpoint finditer_from (r : regex) (skip : nat) (s : str) : list str :=
  match s with
  | [] => []
  | _ :: s' =>
      match skip with
      | S n => finditer_from r n s'
      | 0 =>
          match match_here r s with
          | Some (g1, len) => g1 :: finditer_from r (len - 1) s'
          | None => finditer_from r 0 s'
          end
      end
  end.

Definition finditer (r : regex) (s : str) : list str := finditer_from r 0 s.

(** [re.sub(r'\s+', ' ', s)]: every maximal run of whitespace becomes one
    space.  [in_run] tells that the previous character was whitespace, whose
    run has already been replaced. *)
Fixpoint sub_spaces_from (in_run : bool) (s : str) : str :=
  match s with
  | [] => []
  | c :: s' =>
      if isspace c
      then if in_run
           then sub_spaces_from true s'
           else " "%char :: sub_spaces_from true s'
      else c :: sub_spaces_from false s'
  end.

Definition sub_spaces (s : str) : str := sub_spaces_from false s.

End Re.
Import Re.

(** ** Dynamically typed values and exceptions *)

(** A [float].  A finite one is the number [m * 2^e].  A NaN is equal to
    nothing, itself included, and takes part in a dictionary lookup by
    identity alone, so it carries the object it is. *)
Inductive float : Type :=
| Finite (m e : Z)
| Infinite (negative : bool)
| NaN (object : nat).

(** A [datetime.date], or a [datetime.datetime] without or with a time
    zone: the day, or the microsecond (in UTC when there is a zone), counted
    from a fixed origin. *)
Inductive timestamp : Type :=
| Date (day : Z)
| Naive (microsecond : Z)
| Aware (microsecond : Z).

(** What [yaml.safe_load] builds.  The plain nodes give null, booleans,
    integers, floats, strings, sequences and mappings (a mapping keeps its
    pairs in document order); the tags binary, timestamp, set, omap and
    pairs give bytes, dates, sets and sequences of pairs.  The elements of
    a set are hashable, and come in no specified order. *)
#[warnings="-register-all"]
Inductive value : Type :=
| VNone
| VBool (b : bool)
| VInt (z : Z)
| VFloat (f : float)
| VStr (s : str)
| VBytes (b : bytes)
| VDate (t : timestamp)
| VList (l : list value)
| VPair (a b : value)
| VSet (l : list value)
| VDict (d : list (value * value)).

Inductive exn : Type := AttributeError | TypeError.

Inductive result (A : Type) : Type :=
| Ok (a : A)
| Raise (e : exn).

Arguments Ok {A} a.
Arguments Raise {A} e.

Definition bind {A B : Type} (m : result A) (f : A -> result B) : result B :=
  match m with
  | Ok a => f a
  | Raise e => Raise e
  end.

Notation "x <- m ;; f" := (bind m (fun x => f))
  (at level 61, m at next level, right associativity).

(** [bool(v)] *)
Definition truthy (v : value) : bool :=
  match v with
  | VNone => false
  | VBool b => b
  | VInt z => negb (Z.eqb z 0)
  | VFloat (Finite m _) => negb (Z.eqb m 0)
  | VFloat _ => true
  | VStr s => nonempty s
  | VBytes b => match b with [] => false | _ :: _ => true end
  | VDate _ => true
  | VList l => match l with [] => false | _ :: _ => true end
  | VPair _ _ => true
  | VSet l => match l with [] => false | _ :: _ => true end
  | VDict d => match d with [] => false | _ :: _ => true end
  end.

(** The string [v] of a test ['word' in v.lower()] (lines 68, 70, 105 and
    107).  Of the other values only bytes have a method [lower], and there
    the test raises TypeError: a string is looked for in bytes. *)
Definition str_operand (v : value) : result str :=
  match v with
  | VStr s => Ok s
  | VBytes _ => Raise TypeError
  | _ => Raise AttributeError
  end.

(** The entry of a mapping under a string key; the keys of a mapping are
    distinct. *)
Fixpoint dict_find (key : str) (d : list (value * value)) : option value :=
  match d with
  | [] => None
  | (VStr k, v) :: d' => if str_eqb k key then Some v else dict_find key d'
  | _ :: d' => dict_find key d'
  end.

(** [v.get(key, default)]: only a mapping has the method. *)
Definition get (v : value) (key : str) (default : value) : result value :=
  match v with
  | VDict d =>
      match dict_find key d with
      | Some x => Ok x
      | None => Ok default
      end
  | _ => Raise AttributeError
  end.

(** [for x in v]: the elements of a sequence, a pair or a set, the keys
    of a mapping, the characters of a string, the bytes of bytes as
    integers; nothing else of [value] is iterable. *)
Definition iterate (v : value) : result (list value) :=
  match v with
  | VList l => Ok l
  | VDict d => Ok (map fst d)
  | VStr s => Ok (map (fun c => VStr [c]) s)
  | VBytes b => Ok (map (fun x => VInt (Z.of_nat (Byte.to_nat x))) b)
  | VPair a b => Ok [a; b]
  | VSet l => Ok l
  | _ => Raise TypeError
  end.

(** ** [extract_copyright] *)

Declare Scope regex_scope.
Delimit Scope regex_scope with regex.
Notation "r1 >> r2" := (Cat r1 r2)
  (at level 60, right associativity) : regex_scope.

Definition newline : ascii := "010".

(** The two code points, U+00C2 and U+00A9, of the pattern's second
    optional group. *)
Definition marker : str := ["194"; "169"]%char.

Definition upper_A_Z (c : ascii) : bool := between 65 90 c.
Definition not_newline (c : ascii) : bool := negb (chr_eqb c newline).
Definition not_gt (c : ascii) : bool := negb (chr_eqb c ">").
(** [[-,\s\d]] *)
Definition year_tail (c : ascii) : bool :=
  chr_eqb c "-" || chr_eqb c "," || isspace c || isdecimal c.

(** Line 22, piece by piece; [re.MULTILINE] is in [Eol]. *)
Definition valid_holder_pattern : regex :=
  (Str (L "Copyright") >> Plus isspace        (* Copyright\s+ *)
   >> Opt (Str (L "(c)") >> Star isspace)      (* (?: \(c\) \s* )? *)
   >> Opt (Str marker >> Star isspace)         (* (?: U+00C2 U+00A9 \s* )? *)
   >> Opt (Times 4 isdecimal >> Star year_tail >> Plus isspace)
                                               (* (?: \d{4} [-,\s\d]* \s+ )? *)
   >> Group (Cls upper_A_Z >> Lazy 3 80 not_newline)
                                               (* ( [A-Z] [^\n]{3,80}? ) *)
   >> Opt (Star isspace >> Str (L "<") >> Plus not_gt >> Str (L ">"))
                                               (* (?: \s* < [^>]+ > )? *)
   >> Star isspace                             (* \s* *)
   >> Alt (Str [newline]) Eol)%regex.          (* (?: \n | $ ) *)

Definition template_indicators : list str :=
  map L
    [ "owner"; "holder"; "licensor"; "entity"; "permission"; "notice";
      "granting"; "laws"; "author or"; "contributors"; "reserved";
      "yyyy"; "[year]"; "[name"; "<year>"; "<name>"; "all rights";
      "subject to"; "terms and conditions"; "license."; "licensed under" ]%string.

(** [sum(c.isalpha() for c in s)] *)
Definition alphas (s : str) : nat := length (filter isalpha s).

(** Lines 40-44: the text of group 1, stripped, its whitespace normalised,
    its trailing punctuation removed. *)
Definition clean (group1 : str) : str :=
  let candidate := strip group1 in
  let candidate := sub_spaces candidate in
  rstrip (L ".,;:") candidate.

(** [not best_match] *)
Definition is_unset (best_match : option str) : bool :=
  match best_match with
  | None => true
  | Some b => negb (nonempty b)
  end.

Definition len_of (best_match : option str) : nat :=
  match best_match with
  | None => 0
  | Some b => length b
  end.

(** Lines 40-61: the body of the loop over the matches of one text. *)
Definition consider (best_match : option str) (group1 : str) : option str :=
  let candidate := clean group1 in
  if existsb (fun indicator => str_in indicator (lower candidate))
       template_indicators
  then best_match
  else if (length candidate <? 5) || (80 <? length candidate)
  then best_match
  else if alphas candidate <? 3
  then best_match
  else if is_unset best_match || (length candidate <? len_of best_match)
  then Some candidate
  else best_match.

(** Lines 33-61: the loop over the texts.  A false text is skipped; any
    other text goes to [re.finditer], which with a string pattern takes a
    string only and raises TypeError on anything else, bytes included. *)
Fixpoint scan (best_match : option str) (license_texts : list value)
    : result (option str) :=
  match license_texts with
  | [] => Ok best_match
  | text :: rest =>
      if negb (truthy text)
      then scan best_match rest
      else match text with
           | VStr s =>
               scan (fold_left consider (finditer valid_holder_pattern s)
                       best_match) rest
           | _ => Raise TypeError
           end
  end.

(** Lines 68-74: the name of the package decides. *)
Definition fallback (package_name : str) : str :=
  if str_in (L "datadog") (lower package_name)
  then L "Datadog, Inc."
  else if str_in (L "rust") (lower package_name)
          || existsb (str_eqb package_name) (map L ["libc"; "std"; "core"]%string)
  then L "The Rust Project Developers"
  else L "The " ++ package_name ++ L " Authors".

Definition extract_copyright (license_texts : list value)
    (package_name : value) : result str :=
  best_match <- scan None license_texts ;;
  if negb (is_unset best_match)
  then Ok (match best_match with Some b => b | None => [] end)
  else
    name <- str_operand package_name ;;
    Ok (fallback name).

(** ** [parse_yml_to_csv] *)

(** The dictionary the script stores for a component. *)
Record summary : Type := Summary {
  component : value;
  origin : value;
  license : value;
  copyright : value
}.

(** [components]: an [OrderedDict], its items in insertion order. *)
Definition odict : Type := list (value * summary).

(** A sequence, a set and a mapping have no hash; a pair has one when
    both of its elements have. *)
Fixpoint hashable (v : value) : bool :=
  match v with
  | VList _ | VSet _ | VDict _ => false
  | VPair a b => hashable a && hashable b
  | _ => true
  end.

(** The number that a boolean, an integer or a finite float is, as
    [m * 2^e]; [True] is 1 and [False] is 0. *)
Definition number (v : value) : option (Z * Z) :=
  match v with
  | VBool b => Some (if b then 1 else 0, 0)%Z
  | VInt z => Some (z, 0%Z)
  | VFloat (Finite m e) => Some (m, e)
  | _ => None
  end.

(** Numbers are compared by value, whatever their types: [1 == 1.0]. *)
Definition number_eqb (x y : Z * Z) : bool :=
  let e := Z.min (snd x) (snd y) in
  Z.eqb (fst x * 2 ^ (snd x - e))%Z (fst y * 2 ^ (snd y - e))%Z.

Definition timestamp_eqb (x y : timestamp) : bool :=
  match x, y with
  | Date a, Date b => Z.eqb a b
  | Naive a, Naive b => Z.eqb a b
  | Aware a, Aware b => Z.eqb a b
  | _, _ => false
  end.

(** Equality of two keys that are not both pairs. *)
Definition atom_eqb (a b : value) : bool :=
  match a, b with
  | VNone, VNone => true
  | VStr x, VStr y => str_eqb x y
  | VBytes x, VBytes y => bytes_eqb x y
  | VDate x, VDate y => timestamp_eqb x y
  | VFloat (Infinite x), VFloat (Infinite y) => Bool.eqb x y
  | VFloat (NaN x), VFloat (NaN y) => Nat.eqb x y
  | _, _ =>
      match number a, number b with
      | Some x, Some y => number_eqb x y
      | _, _ => false
      end
  end.

(** Equality of dictionary keys: [a is b or a == b]. *)
Fixpoint key_eqb (a b : value) : bool :=
  match a, b with
  | VPair a1 a2, VPair b1 b2 => key_eqb a1 b1 && key_eqb a2 b2
  | _, _ => atom_eqb a b
  end.

(** [key in components] *)
Definition contains (components : odict) (key : value) : result bool :=
  if hashable key
  then Ok (existsb (fun item => key_eqb (fst item) key) components)
  else Raise TypeError.

(** Lines 96-98: [lic.get('text', '')] for each [lic], in order. *)
Fixpoint texts_of (licenses : list value) : result (list value) :=
  match licenses with
  | [] => Ok []
  | lic :: rest =>
      text <- get lic (L "text") (VStr []) ;;
      texts <- texts_of rest ;;
      Ok (text :: texts)
  end.

(** Lines 103-111: the fallback of the caller, taken when
    [extract_copyright] returns an empty string. *)
Definition second_fallback (package_name repository : value) : result str :=
  name <- str_operand package_name ;;
  if str_in (L "rust") (lower name)
  then Ok (L "The Rust Project Developers")
  else
    repo <- str_operand repository ;;
    if str_in (L "rust") (lower repo)
    then Ok (L "The Rust Project Developers")
    else if str_in (L "datadog") (lower repo)
    then Ok (L "Datadog, Inc.")
    else Ok (name ++ L " Authors").

(** Lines 86-118: the body of the loop over the entries. *)
Definition visit (components : odict) (lib : value) : result odict :=
  package_name <- get lib (L "package_name") (VStr []) ;;
  package_version <- get lib (L "package_version") (VStr []) ;;
  repository <- get lib (L "repository") (VStr []) ;;
  license_id <- get lib (L "license") (VStr []) ;;
  seen <- contains components package_name ;;
  if seen
  then Ok components
  else
    licenses <- get lib (L "licenses") (VList []) ;;
    licenses <- iterate licenses ;;
    license_texts <- texts_of licenses ;;
    copyright_holder <- extract_copyright license_texts package_name ;;
    copyright_holder <-
      (if negb (nonempty copyright_holder)
       then second_fallback package_name repository
       else Ok copyright_holder) ;;
    Ok (components
          ++ [(package_name,
               Summary package_name repository license_id
                 (VStr copyright_holder))]).

Fixpoint visit_all (components : odict) (libs : list value) : result odict :=
  match libs with
  | [] => Ok components
  | lib :: rest =>
      components' <- visit components lib ;;
      visit_all components' rest
  end.

(** [data] is what [yaml.safe_load] returned. *)
Definition parse_yml_to_csv (data : value) : result odict :=
  libs <- get data (L "third_party_libraries") (VList []) ;;
  libs <- iterate libs ;;
  visit_all [] libs.

(** ** [write_csv] *)

(** A key of the sort of line 129: [.lower()] of a string is a string,
    [.lower()] of bytes is bytes. *)
Inductive sortkey : Type :=
| KStr (s : str)
| KBytes (b : bytes).

(** [a < b] on keys: a string and bytes are not ordered. *)
Definition key_ltb (a b : sortkey) : result bool :=
  match a, b with
  | KStr s, KStr t => Ok (str_ltb s t)
  | KBytes s, KBytes t => Ok (bytes_ltb s t)
  | _, _ => Raise TypeError
  end.

(** [sorted(xs, key=...)] on items already paired with their keys.  Python's
    sort is stable and compares keys with [<] only; on a list there is one
    stable sorted arrangement, computed here by insertion from the right.
    A comparison that raises ends the sort, and some comparison is between
    a string and bytes whenever the keys are of both kinds. *)
Section Sorted.

Variable A : Type.

Fixpoint insert_keyed (kx : sortkey * A) (l : list (sortkey * A))
    : result (list (sortkey * A)) :=
  match l with
  | [] => Ok [kx]
  | ky :: l' =>
      before <- key_ltb (fst ky) (fst kx) ;;
      if before
      then rest <- insert_keyed kx l' ;; Ok (ky :: rest)
      else Ok (kx :: l)
  end.

Fixpoint sorted (l : list (sortkey * A))
    : result (list (sortkey * A)) :=
  match l with
  | [] => Ok []
  | kx :: rest =>
      done <- sorted rest ;;
      insert_keyed kx done
  end.

End Sorted.

Arguments insert_keyed {A} kx l.
Arguments sorted {A} l.

(** The key of line 129: [x['component'].lower()]. *)
Definition sort_key (x : summary) : result sortkey :=
  match component x with
  | VStr s => Ok (KStr (lower s))
  | VBytes b => Ok (KBytes (lower_bytes b))
  | _ => Raise AttributeError
  end.

(** The keys are computed for all the items, in their order, before the
    first comparison. *)
Fixpoint keyed (xs : list summary) : result (list (sortkey * summary)) :=
  match xs with
  | [] => Ok []
  | x :: rest =>
      k <- sort_key x ;;
      ks <- keyed rest ;;
      Ok ((k, x) :: ks)
  end.

Definition header : str := L "Component,Origin,License,Copyright" ++ [newline].

(** [v.replace(',', ';')].  Of the other values bytes and dates have a
    method [replace], which raises TypeError when given two strings. *)
Definition escape (v : value) : result str :=
  match v with
  | VStr s => Ok (replace "," ";" s)
  | VBytes _ | VDate _ => Raise TypeError
  | _ => Raise AttributeError
  end.

(** Lines 131-136: what one iteration writes. *)
Definition write_row (x : summary) : result str :=
  comp <- escape (component x) ;;
  origin <- escape (origin x) ;;
  lic <- escape (license x) ;;
  copy <- escape (copyright x) ;;
  Ok (comp ++ L "," ++ origin ++ L "," ++ lic ++ L "," ++ copy ++ [newline]).

Fixpoint write_rows (xs : list summary) : result str :=
  match xs with
  | [] => Ok []
  | x :: rest =>
      row <- write_row x ;;
      rows <- write_rows rest ;;
      Ok (row ++ rows)
  end.

(** The text of the file after [write_csv]; a raised exception leaves the
    file incomplete and is the result. *)
Definition write_csv (components : odict) : result str :=
  ks <- keyed (map snd components) ;;
  ordered <- sorted ks ;;
  rows <- write_rows (map snd ordered) ;;
  Ok (header ++ rows).

(** ** [main] *)

(** [yml] is the parsed manifest, or [None] when the file does not exist.
    The result is the exit code and the text written, if any. *)
Definition main (yml : option value) : result (nat * option str) :=
  match yml with
  | None => Ok (1, None)
  | Some data =>
      components <- parse_yml_to_csv data ;;
      document <- write_csv components ;;
      Ok (0, Some document)
  end.


(** * Notions the properties are stated with *)

(** ** Candidates *)

(** A candidate is boilerplate when its lower-case form holds one of the
    template indicators. *)
Definition boilerplate (candidate : str) : bool :=
  existsb (fun indicator => str_in indicator (lower candidate))
    template_indicators.

(** A candidate survives the three rejection filters of lines 47-57. *)
Definition survives (candidate : str) : bool :=
  negb (boilerplate candidate)
  && (5 <=? length candidate) && (length candidate <=? 80)
  && (3 <=? alphas candidate).

(** The surviving candidates of the texts, in scan order: the texts in
    sequence order, the matches of a text by position. *)
Definition survivors_of (text : str) : list str :=
  filter survives (map clean (finditer valid_holder_pattern text)).

Definition survivors (texts : list str) : list str :=
  flat_map survivors_of texts.

(** The comparison of line 60 on a candidate that survived. *)
Definition pick (best_match : option str) (candidate : str) : option str :=
  if is_unset best_match || (length candidate <? len_of best_match)
  then Some candidate
  else best_match.

(** [r] stands in [l] at the first position of minimum length. *)
Definition first_shortest (r : str) (l : list str) : Prop :=
  exists before after,
    l = before ++ r :: after
    /\ Forall (fun c => length r < length c) before
    /\ Forall (fun c => length r <= length c) after.

(** [word] occurs in [s]. *)
Definition occurs (word s : str) : Prop :=
  exists before after, s = before ++ word ++ after.

(** ** The example of the specification *)

(** The line of the specification's example. *)
Definition jane_line : str :=
  L "Copyright (c) 2020 Jane Doe <jane@example.com>".

(** A text that holds [jane_line] as its second line. *)
Definition apple_then_jane : str :=
  L "Copyright Apple" ++ [newline] ++ jane_line.

(** [text] holds [line] as one of its lines. *)
Definition has_line (line text : str) : Prop :=
  exists before after,
    text = before ++ line ++ after
    /\ (before = [] \/ exists b, before = b ++ [newline])
    /\ (after = [] \/ exists a, after = newline :: a).

(** What is left of the pattern once the holder and the address have been
    matched and the white space after them passed: [(?:\n|$)]. *)
Definition line_end (holder : str) (i : nat) (s : str) : option found :=
  run (Alt (Str [newline]) Eol) i s (Some holder)
    (fun j _ g => match g with
                  | Some g1 => Some (g1, j)
                  | None => Some ([], j)
                  end).

Definition copyright_word : str := L "Copyright".

(** An occurrence of [word] in [pre ++ rest] that starts inside [pre]. *)
Definition starts_in (word pre rest : str) : Prop :=
  exists s1 s2,
    pre = s1 ++ s2 /\ s2 <> [] /\ startswith word (s2 ++ rest) = true.

(** [text] holds [line], the line ends the text or is followed by a
    newline, and the word 'Copyright' is nowhere in the text but in the
    line. *)
Definition only_statement (line text : str) : Prop :=
  exists pre post,
    text = pre ++ line ++ post
    /\ (post = [] \/ exists p, post = newline :: p)
    /\ ~ starts_in copyright_word pre (line ++ post)
    /\ ~ occurs copyright_word post.

(** A license text in which the line stands between two paragraphs. *)
Definition mit_text : str :=
  L "MIT License" ++ [newline; newline] ++ jane_line
  ++ [newline; newline] ++ L "Permission is hereby granted".

(** [starts_in word pre rest], decided. *)
Fixpoint starts_inb (word pre rest : str) : bool :=
  match pre with
  | [] => false
  | _ :: pre' =>
      startswith word (pre ++ rest) || starts_inb word pre' rest
  end.

(** The license text 'Copyright (C) 2020 Acme Corp' with the sign U+00A9 in
    the place of '(C)'. *)
Definition acme_text : str :=
  L "Copyright " ++ ["169"%char] ++ L " 2020 Acme Corp".

(** ** Entries and summaries *)

(** The entries that the loop of line 85 visits. *)
Definition entries (data : value) : result (list value) :=
  libs <- get data (L "third_party_libraries") (VList []) ;;
  iterate libs.

(** The component name of an entry. *)
Definition name_of (lib : value) : result value :=
  get lib (L "package_name") (VStr []).

(** The summary of an entry, computed from that entry alone: the name, the
    repository and the license as they stand, the copyright holder that
    [extract_copyright] finds in the entry's license texts. *)
Definition summarise (lib : value) : result summary :=
  package_name <- get lib (L "package_name") (VStr []) ;;
  repository <- get lib (L "repository") (VStr []) ;;
  license_id <- get lib (L "license") (VStr []) ;;
  licenses <- get lib (L "licenses") (VList []) ;;
  licenses <- iterate licenses ;;
  license_texts <- texts_of licenses ;;
  copyright_holder <- extract_copyright license_texts package_name ;;
  Ok (Summary package_name repository license_id (VStr copyright_holder)).

(** [components[key]], when the key is there. *)
Definition lookup (key : value) (components : odict) : option summary :=
  option_map snd (find (fun item => key_eqb (fst item) key) components).

(** No two items of the dictionary have equal keys. *)
Fixpoint distinct_keys (components : odict) : Prop :=
  match components with
  | [] => True
  | item :: rest =>
      Forall (fun later => key_eqb (fst item) (fst later) = false) rest
      /\ distinct_keys rest
  end.

(** The value of a field of a mapping, [default] when the key is missing. *)
Definition field (d : list (value * value)) (key : str) (default : value)
    : value :=
  match dict_find key d with
  | Some x => x
  | None => default
  end.

(** ** Written lines *)

(** The string a value holds; [summary] fields that are strings are what
    the writer can write. *)
Definition text_of (v : value) : str :=
  match v with
  | VStr s => s
  | _ => []
  end.

(** A summary whose four fields are strings. *)
Definition textual (x : summary) : Prop :=
  exists c o l h, x = Summary (VStr c) (VStr o) (VStr l) (VStr h).

(** [sep.join(fields)] *)
Fixpoint join (sep : str) (fields : list str) : str :=
  match fields with
  | [] => []
  | [f] => f
  | f :: rest => f ++ sep ++ join sep rest
  end.

(** The source values of the four columns of a summary. *)
Definition columns (x : summary) : list str :=
  [text_of (component x); text_of (origin x); text_of (license x);
   text_of (copyright x)].

(** [dst] is [src] with every comma turned into a semicolon and every other
    character kept. *)
Definition semicolons (src dst : str) : Prop :=
  Forall2 (fun a b => b = if chr_eqb a "," then ";"%char else a) src dst.

(** The text of the body line of a summary, and the line as written. *)
Definition row_text (x : summary) : str :=
  join (L ",") (map (replace "," ";") (columns x)).

Definition line_of (x : summary) : str := row_text x ++ [newline].

(** The sort key of a summary and the order of Python on keys:
    [a <= b] when [b < a] is false. *)
Definition key_of (x : summary) : str := lower (text_of (component x)).

Definition str_le (a b : str) : Prop := str_ltb b a = false.

Definition by_key (x y : summary) : Prop := str_le (key_of x) (key_of y).

(** [s.split(sep)] for a one-character separator. *)
Fixpoint split (sep : ascii) (s : str) : list str :=
  match s with
  | [] => [[]]
  | c :: s' =>
      if chr_eqb c sep
      then [] :: split sep s'
      else match split sep s' with
           | piece :: pieces => (c :: piece) :: pieces
           | [] => [[c]]
           end
  end.

(** The lines of a document that ends with a newline. *)
Definition lines (document : str) : list str :=
  removelast (split newline document).

(** The first column of a body line. *)
Definition component_field (line : str) : str := hd [] (split "," line).

(** The order of the sort on items paired with their keys. *)
Definition key_le {A : Type} (kx ky : str * A) : Prop :=
  str_le (fst kx) (fst ky).

(** The stable sorted arrangement of items with string keys: each item,
    from the last to the first, is placed before the first item whose key
    is not smaller than its own. *)
Fixpoint place {A : Type} (kx : str * A) (l : list (str * A))
    : list (str * A) :=
  match l with
  | [] => [kx]
  | ky :: l' =>
      if str_ltb (fst ky) (fst kx)
      then ky :: place kx l'
      else kx :: l
  end.

Definition arranged {A : Type} (l : list (str * A)) : list (str * A) :=
  fold_right place [] l.

(** The summaries in the order [write_csv] writes them. *)
Definition written_order (xs : list summary) : list summary :=
  map snd (arranged (map (fun x => (key_of x, x)) xs)).

(** An item with a string key, as the sort of line 129 holds it. *)
Definition tagged {A : Type} (kx : str * A) : sortkey * A :=
  (KStr (fst kx), snd kx).

(** ** Example dictionaries and manifests *)

(** A string of the source as a value. *)
Definition text (s : string) : value := VStr (L s).

(** A dictionary with three components, not in order, with commas in
    their fields. *)
Definition three_components : odict :=
  [ (text "serde",
     Summary (text "serde") (text "https://github.com/serde-rs/serde")
       (text "MIT OR Apache-2.0") (text "Erick Tryzelaar, David Tolnay"));
    (text "Bytes",
     Summary (text "Bytes") (text "https://github.com/tokio-rs/bytes")
       (text "MIT") (text "Carl Lerche"));
    (text "anyhow",
     Summary (text "anyhow") (text "https://github.com/dtolnay/anyhow")
       (text "MIT, Apache-2.0") (text "The anyhow Authors")) ].

Open Scope string_scope.

(** A manifest entry with every field and one license object per text. *)
Definition entry (name version repository license_id : string)
    (texts : list string) : value :=
  VDict [ (text "package_name", text name);
          (text "package_version", text version);
          (text "repository", text repository);
          (text "license", text license_id);
          (text "licenses",
           VList (map (fun t => VDict [(text "text", text t)]) texts)) ].

Definition manifest (libs : list value) : value :=
  VDict [(text "third_party_libraries", VList libs)].

(** Two entries whose names differ in one character, a comma against a
    semicolon. *)
Definition comma_manifest : value :=
  manifest [ entry "a,b" "1.0" "" "" []; entry "a;b" "1.0" "" "" [] ].

(** The scenario of the specification: 'serde' twice, versions 1.0 and 1.1,
    here with different repositories and licenses, after another entry. *)
Definition serde_1_0 : value :=
  entry "serde" "1.0" "https://github.com/serde-rs/serde" "MIT"
    ["Copyright (c) 2014 The Rust Project Developers"].

Definition serde_1_1 : value :=
  entry "serde" "1.1" "https://example.org/fork" "Apache-2.0"
    ["Copyright (c) 2020 Jane Doe <jane@example.com>"].

Definition anyhow_1_0 : value :=
  entry "anyhow" "1.0" "https://github.com/dtolnay/anyhow" "MIT" [].

Definition serde_manifest : value :=
  manifest [anyhow_1_0; serde_1_0; serde_1_1].

(** What the aggregation returns on [serde_manifest]. *)
Definition serde_components : odict :=
  [ (text "anyhow",
     Summary (text "anyhow") (text "https://github.com/dtolnay/anyhow")
       (text "MIT") (text "The anyhow Authors"));
    (text "serde",
     Summary (text "serde") (text "https://github.com/serde-rs/serde")
       (text "MIT") (text "The Rust Project Developers")) ].

(** One entry with an integer for its name. *)
Definition integer_name_manifest : value :=
  manifest [ VDict [(text "package_name", VInt 42)] ].

(** A sound entry followed by one whose license list is null. *)
Definition null_licenses_manifest : value :=
  manifest [ anyhow_1_0;
             VDict [(text "package_name", text "serde");
                    (text "licenses", VNone)] ].

(** An entry with no field at all, an entry whose license object has no
    text and an entry whose first license object has a null text. *)
Definition sparse_entries : list value :=
  [ VDict [];
    VDict [(text "package_name", text "serde");
           (text "licenses", VList [VDict []])];
    VDict [(text "package_name", text "anyhow");
           (text "licenses",
            VList [ VDict [(text "text", VNone)];
                    VDict [(text "text",
                            text "Copyright (c) 2019 David Tolnay")] ])] ].

Definition sparse_manifest : value := manifest sparse_entries.

(** A manifest with null under third_party_libraries, and the manifest of
    an empty document, null. *)
Definition null_entries_manifest : value :=
  VDict [(text "third_party_libraries", VNone)].

Definition empty_document : value := VNone.

(** Two summaries; the license of the second holds a newline. *)
Definition multiline_components : odict :=
  [ (text "anyhow",
     Summary (text "anyhow") (text "https://github.com/dtolnay/anyhow")
       (text "MIT") (text "The anyhow Authors"));
    (text "serde",
     Summary (text "serde") (text "https://github.com/serde-rs/serde")
       (VStr (L "MIT" ++ [newline] ++ L "Apache-2.0")%list)
       (text "The serde Authors")) ].

(** Two entries whose names are free of commas; the second name holds a
    newline. *)
Definition multiline_name_manifest : value :=
  manifest [ VDict [(text "package_name", text "b")];
             VDict [(text "package_name",
                     VStr (L "a" ++ [newline] ++ L "b")%list)] ].

Close Scope string_scope.

(** ** Sound entries *)

Definition is_text (v : value) : Prop := exists s, v = VStr s.

(** The field [key] of [d], when it is there, satisfies [P]. *)
Definition present_ok (P : value -> Prop) (d : list (value * value))
    (key : str) : Prop :=
  match dict_find key d with
  | Some v => P v
  | None => True
  end.

(** A license text that the scan takes: a string, which it reads, or a
    value that is false, such as null, which it skips. *)
Definition text_ok (v : value) : Prop := is_text v \/ truthy v = false.

(** A license object: a mapping whose text, if given, is a string or
    false. *)
Definition license_ok (lic : value) : Prop :=
  exists d, lic = VDict d /\ present_ok text_ok d (L "text").

(** A license list: a sequence, or another value with elements, all of
    them license objects. *)
Definition licenses_ok (v : value) : Prop :=
  exists l, iterate v = Ok l /\ Forall license_ok l.

(** An entry that may miss any field, and whose name and license list, when
    given, are a string and a sequence of license objects. *)
Definition entry_ok (lib : value) : Prop :=
  exists d,
    lib = VDict d
    /\ present_ok is_text d (L "package_name")
    /\ present_ok licenses_ok d (L "licenses").

(** The text of a license object, the empty string when it has none. *)
Definition text_or_empty (lic : value) : value :=
  match lic with
  | VDict d => field d (L "text") (VStr [])
  | _ => VStr []
  end.

(** The elements of a value that has elements. *)
Definition items_of (v : value) : list value :=
  match iterate v with
  | Ok l => l
  | Raise _ => []
  end.

(** * Notions for the further properties *)

(** ** What the pattern can match *)

(** The matches of a pattern, read off its syntax: from offset [i], input
    [s] and group [g], the pattern takes the match to offset [j], input [s']
    and group [g']. *)
Fixpoint matches (r : regex) (i : nat) (s : str) (g : option str)
    (j : nat) (s' : str) (g' : option str) : Prop :=
  match r with
  | Str lit => s = lit ++ s' /\ j = i + length lit /\ g' = g
  | Cls p => (exists c, s = c :: s' /\ p c = true) /\ j = S i /\ g' = g
  | Cat r1 r2 =>
      exists j1 s1 g1, matches r1 i s g j1 s1 g1 /\ matches r2 j1 s1 g1 j s' g'
  | Alt r1 r2 => matches r1 i s g j s' g' \/ matches r2 i s g j s' g'
  | Opt r1 => matches r1 i s g j s' g' \/ (j = i /\ s' = s /\ g' = g)
  | Star p =>
      (exists w, s = w ++ s' /\ forallb p w = true /\ j = i + length w)
      /\ g' = g
  | Plus p =>
      (exists w, s = w ++ s' /\ forallb p w = true /\ w <> []
                 /\ j = i + length w)
      /\ g' = g
  | Times n p =>
      (exists w, s = w ++ s' /\ forallb p w = true /\ length w = n
                 /\ j = i + length w)
      /\ g' = g
  | Lazy lo hi p =>
      (exists w, s = w ++ s' /\ forallb p w = true
                 /\ lo <= length w <= lo + (hi - lo) /\ j = i + length w)
      /\ g' = g
  | Group r1 =>
      (exists g0, matches r1 i s g j s' g0) /\ g' = Some (firstn (j - i) s)
  | Eol => (s = [] \/ exists t, s = newline :: t) /\ j = i /\ s' = s /\ g' = g
  end.

(** A text that group 1 of the pattern of line 22 can hold: a capital
    letter and then 3 to 80 characters, none a newline. *)
Definition holder_shaped (g : str) : Prop :=
  exists c w,
    g = c :: w /\ upper_A_Z c = true
    /\ 3 <= length w <= 80 /\ ~ In newline w.

(** ** Tidy candidates *)

(** Every white-space character of [s] is a space, and is not followed by
    another white-space character. *)
Fixpoint single_spaced (s : str) : Prop :=
  match s with
  | [] => True
  | c :: t =>
      (isspace c = true ->
       c = " "%char
       /\ match t with
          | [] => True
          | d :: _ => isspace d = false
          end)
      /\ single_spaced t
  end.

(** The characters that line 44 strips from the end. *)
Definition punctuation : str := L ".,;:".

(** ** Texts of the wrong type *)

(** A license text that [re.finditer] refuses: true, and not a string. *)
Definition unreadable (t : value) : Prop :=
  truthy t = true /\ ~ is_text t.

Definition is_bytes (v : value) : Prop := exists b, v = VBytes b.

(** The license texts that are strings, in their order. *)
Definition strings_of (license_texts : list value) : list str :=
  flat_map (fun t => match t with VStr s => [s] | _ => [] end) license_texts.

Definition is_date (v : value) : Prop := exists t, v = VDate t.

(** A value that is neither a string nor bytes: it has no method
    [lower]. *)
Definition no_text_method (v : value) : Prop := ~ is_text v /\ ~ is_bytes v.

(** A value with a method [replace] that does not take two strings. *)
Definition bytes_or_date (v : value) : Prop := is_bytes v \/ is_date v.

(** The four fields of a summary. *)
Definition fields (x : summary) : list value :=
  [component x; origin x; license x; copyright x].

(** The bytes of a string of the source. *)
Definition bytes_of (s : string) : bytes := list_byte_of_string s.

(** A license text with two statements and a null text beside it. *)
Definition two_statements : str :=
  L "Copyright (c) 2019 Example Widgets Ltd." ++ [newline]
  ++ L "Copyright 2020  Jane Doe <jane@example.com>".

(** ** Names in the order of first occurrence *)

(** The names of [names] that are equal, as keys, to no name of [seen] and
    to no earlier name of the list. *)
Fixpoint keep_first (seen names : list value) : list value :=
  match names with
  | [] => []
  | n :: rest =>
      if existsb (fun k => key_eqb k n) seen
      then keep_first seen rest
      else n :: keep_first (seen ++ [n]) rest
  end.

(** [serde_manifest] followed by one more 'serde' whose license list is
    null. *)
Definition serde_again : value :=
  VDict [(text "package_name", text "serde"); (text "licenses", VNone)].

Definition serde_manifest_again : value :=
  manifest [anyhow_1_0; serde_1_0; serde_1_1; serde_again].

(** A manifest with a string in the place of an entry. *)
Definition stray_manifest : value :=
  manifest [anyhow_1_0; text "serde"].

(** ** Typed entries *)

(** A sound entry whose repository and license, when given, are strings. *)
Definition entry_typed (lib : value) : Prop :=
  entry_ok lib
  /\ exists d,
       lib = VDict d
       /\ present_ok is_text d (L "repository")
       /\ present_ok is_text d (L "license").

(** The summaries of a dictionary share the key [k] of the sort. *)
Definition has_key (k : str) (x : summary) : bool := str_eqb (key_of x) k.

(** Two names that differ in case only, around a third. *)
Definition mixed_case_components : odict :=
  [ (text "Serde",
     Summary (text "Serde") (text "https://a.example") (text "MIT")
       (text "The Serde Authors"));
    (text "anyhow",
     Summary (text "anyhow") (text "https://b.example") (text "MIT")
       (text "The anyhow Authors"));
    (text "serde",
     Summary (text "serde") (text "https://c.example") (text "MIT")
       (text "The serde Authors")) ].

(** A summary whose origin is null. *)
Definition null_origin_components : odict :=
  [ (text "serde",
     Summary (text "serde") VNone (text "MIT") (text "The serde Authors")) ].

(** A summary whose license is a date. *)
Definition date_license_components : odict :=
  [ (text "serde",
     Summary (text "serde") (text "https://github.com/serde-rs/serde")
       (VDate (Date 18262)) (text "The serde Authors")) ].

(** Two summaries; the name of the first is bytes. *)
Definition bytes_name_components : odict :=
  [ (VBytes (bytes_of "zlib"),
     Summary (VBytes (bytes_of "zlib")) (text "https://zlib.net")
       (text "Zlib") (text "Jean-loup Gailly"));
    (text "serde",
     Summary (text "serde") (text "https://github.com/serde-rs/serde")
       (text "MIT") (text "The serde Authors")) ].

(** * Proofs *)

Lemma Ok_inj (A : Type) (a b : A) : Ok a = Ok b -> a = b.
Proof. intros H. injection H as H. exact H. Qed.

(** ** Strings *)

Lemma chr_eqb_eq (a b : ascii) : chr_eqb a b = true <-> a = b.
Proof. apply Ascii.eqb_eq. Qed.

Lemma str_eqb_eq (a b : str) : str_eqb a b = true <-> a = b.
Proof.
  revert b; induction a as [|x a IH]; intros [|y b]; simpl;
    try (split; congruence).
  rewrite andb_true_iff, chr_eqb_eq, IH.
  split; [intros [-> ->]; reflexivity | intros H; inversion H; auto].
Qed.

Lemma startswith_app (p s : str) :
  startswith p s = true <-> exists rest, s = p ++ rest.
Proof.
  revert s; induction p as [|x p IH]; intros s; simpl.
  - split; [exists s; reflexivity | reflexivity].
  - destruct s as [|y s].
    + split; [discriminate | intros [rest H]; discriminate].
    + rewrite andb_true_iff, chr_eqb_eq, IH. split.
      * intros [-> [rest ->]]. exists rest; reflexivity.
      * intros [rest H]. inversion H; subst. split; eauto.
Qed.

Lemma str_in_occurs (word s : str) : str_in word s = true <-> occurs word s.
Proof.
  unfold occurs. induction s as [|c s IH].
  - simpl. rewrite orb_false_r, startswith_app. split.
    + intros [rest H]. exists [], rest. exact H.
    + intros [[|x before] [after H]]; [eauto|discriminate].
  - cbn [str_in]. rewrite orb_true_iff, startswith_app, IH. split.
    + intros [[rest H] | [before [after H]]].
      * exists [], rest. exact H.
      * exists (c :: before), after. rewrite H. reflexivity.
    + intros [[|x before] [after H]].
      * left. exists after. exact H.
      * right. inversion H; subst. eauto.
Qed.

Lemma str_in_not_occurs (word s : str) :
  str_in word s = false <-> ~ occurs word s.
Proof.
  rewrite <- str_in_occurs. destruct (str_in word s); split; congruence.
Qed.

(** ** The scan of the texts *)

Lemma consider_pick (best_match : option str) (group1 : str) :
  consider best_match group1
  = if survives (clean group1) then pick best_match (clean group1)
    else best_match.
Proof.
  unfold consider, survives, pick, boilerplate.
  set (c := clean group1).
  rewrite (Nat.ltb_antisym 5 (length c)), (Nat.ltb_antisym (length c) 80),
    (Nat.ltb_antisym 3 (alphas c)).
  destruct (existsb _ template_indicators); [reflexivity|].
  destruct (5 <=? length c); [|reflexivity].
  destruct (length c <=? 80); [|reflexivity].
  destruct (3 <=? alphas c); reflexivity.
Qed.

Lemma fold_consider (matches : list str) (best_match : option str) :
  fold_left consider matches best_match
  = fold_left pick (filter survives (map clean matches)) best_match.
Proof.
  revert best_match; induction matches as [|m matches IH]; intros b; simpl.
  - reflexivity.
  - rewrite IH, consider_pick.
    destruct (survives (clean m)); reflexivity.
Qed.

(** On texts that are strings the scan never raises: it folds [pick] over
    the surviving candidates. *)
Lemma scan_strings (texts : list str) (best_match : option str) :
  scan best_match (map VStr texts)
  = Ok (fold_left pick (survivors texts) best_match).
Proof.
  revert best_match; induction texts as [|t texts IH]; intros b.
  - reflexivity.
  - cbn [map scan truthy]. unfold survivors. cbn [flat_map].
    rewrite fold_left_app. fold (survivors texts).
    destruct t as [|c t]; cbn [nonempty negb].
    + rewrite IH. reflexivity.
    + rewrite IH, fold_consider. reflexivity.
Qed.

Lemma survives_length (c : str) : survives c = true -> 5 <= length c.
Proof.
  unfold survives. rewrite !andb_true_iff, Nat.leb_le. tauto.
Qed.

Lemma survivors_survive (texts : list str) :
  Forall (fun c => survives c = true) (survivors texts).
Proof.
  unfold survivors. induction texts as [|t texts IH]; simpl.
  - constructor.
  - apply Forall_app. split; [|exact IH].
    apply Forall_forall. intros c Hc.
    unfold survivors_of in Hc. apply filter_In in Hc. tauto.
Qed.

Lemma survivors_app (l1 l2 : list str) :
  survivors (l1 ++ l2) = survivors l1 ++ survivors l2.
Proof. unfold survivors. apply flat_map_app. Qed.

(** The fold of [pick] from nothing ends on the first shortest element. *)
Lemma fold_pick_first_shortest (l : list str) :
  Forall (fun c => 5 <= length c) l ->
  match fold_left pick l None with
  | None => l = []
  | Some r => first_shortest r l
  end.
Proof.
  induction l as [|c l IH] using rev_ind; intros Hl.
  - reflexivity.
  - apply Forall_app in Hl. destruct Hl as [Hl Hc].
    inversion Hc as [|? ? Hc5 _]; subst.
    rewrite fold_left_app. cbn [fold_left].
    specialize (IH Hl).
    destruct (fold_left pick l None) as [r|].
    + destruct IH as (before & after & -> & Hb & Ha).
      assert (Hr : 5 <= length r).
      { apply Forall_app in Hl. destruct Hl as [_ Hl].
        inversion Hl; assumption. }
      assert (Hne : nonempty r = true).
      { destruct r; [simpl in Hr; lia | reflexivity]. }
      unfold pick. cbn [is_unset len_of]. rewrite Hne. cbn [negb orb].
      destruct (Nat.ltb_spec (length c) (length r)) as [Hlt|Hge].
      * exists (before ++ r :: after), []. repeat split.
        -- apply Forall_app. split.
           ++ eapply Forall_impl; [|exact Hb]. simpl; intros; lia.
           ++ constructor; [lia|].
              eapply Forall_impl; [|exact Ha]. simpl; intros; lia.
        -- constructor.
      * exists before, (after ++ [c]). repeat split.
        -- rewrite <- app_assoc. reflexivity.
        -- exact Hb.
        -- apply Forall_app. split; [exact Ha|]. constructor; [lia|constructor].
    + subst l. unfold pick. cbn.
      exists [], []. repeat split; constructor.
Qed.

Lemma first_shortest_In (r : str) (l : list str) :
  first_shortest r l -> In r l.
Proof.
  intros (before & after & -> & _). apply in_elt.
Qed.

Lemma first_shortest_unique (r r' : str) (l : list str) :
  first_shortest r l -> first_shortest r' l -> r = r'.
Proof.
  intros (b1 & a1 & -> & Hb1 & Ha1) (b2 & a2 & E & Hb2 & Ha2).
  revert b2 E Hb2. induction b1 as [|x b1 IH]; intros [|y b2] E Hb2.
  - simpl in E. congruence.
  - simpl in E. inversion E; subst y a1.
    inversion Hb2 as [|? ? Hlt _]; subst.
    rewrite Forall_forall in Ha1.
    specialize (Ha1 r' (in_elt _ _ _)). lia.
  - simpl in E. inversion E; subst x a2.
    inversion Hb1 as [|? ? Hlt _]; subst.
    rewrite Forall_forall in Ha2.
    specialize (Ha2 r (in_elt _ _ _)). lia.
  - simpl in E. inversion E; subst y.
    inversion Hb1; inversion Hb2; subst. eauto.
Qed.

Lemma survivors_long (texts : list str) :
  Forall (fun c => 5 <= length c) (survivors texts).
Proof.
  eapply Forall_impl; [|apply survivors_survive].
  intros c. apply survives_length.
Qed.

(** On strings [extract_copyright] returns: the first shortest surviving
    candidate when there is one, the name-based text otherwise.  Shared by
    the theorems below. *)
Lemma extract_copyright_strings (texts : list str) (name : str) :
  (exists r,
      first_shortest r (survivors texts)
      /\ extract_copyright (map VStr texts) (VStr name) = Ok r)
  \/ (survivors texts = []
      /\ extract_copyright (map VStr texts) (VStr name) = Ok (fallback name)).
Proof.
  unfold extract_copyright. rewrite scan_strings. cbn [bind].
  pose proof (fold_pick_first_shortest _ (survivors_long texts)) as H.
  destruct (fold_left pick (survivors texts) None) as [r|].
  - left. exists r. split; [exact H|].
    assert (Hr : 5 <= length r).
    { pose proof (survivors_long texts) as Hl.
      rewrite Forall_forall in Hl. apply Hl, first_shortest_In, H. }
    destruct r; [simpl in Hr; lia | reflexivity].
  - right. split; [exact H | reflexivity].
Qed.

(** On texts that are strings or false the scan never raises: the false
    ones are skipped, the others read. *)
Lemma scan_text_ok (license_texts : list value) (best_match : option str) :
  Forall text_ok license_texts ->
  scan best_match license_texts
  = Ok (fold_left pick (survivors (strings_of license_texts)) best_match).
Proof.
  intros H. revert best_match.
  induction H as [|t texts Ht _ IH]; intros b; [reflexivity|].
  cbn [scan]. unfold strings_of. cbn [flat_map]. fold (strings_of texts).
  rewrite survivors_app, fold_left_app.
  destruct (truthy t) eqn:Et; cbn [negb].
  - destruct Ht as [(s & ->) | Hf]; [|congruence].
    rewrite IH. change (survivors [s]) with (survivors_of s ++ []).
    rewrite app_nil_r.
    unfold survivors_of. rewrite fold_consider. reflexivity.
  - rewrite IH. f_equal. f_equal.
    destruct t as [| | | |s| | | | | |]; try reflexivity.
    destruct s; [reflexivity | discriminate Et].
Qed.

(** A scan that ends has met no text that it cannot read. *)
Lemma scan_Ok_text_ok (license_texts : list value)
    (best_match best : option str) :
  scan best_match license_texts = Ok best -> Forall text_ok license_texts.
Proof.
  revert best_match.
  induction license_texts as [|t texts IH]; intros b; cbn [scan].
  - constructor.
  - destruct (truthy t) eqn:Et; cbn [negb].
    + destruct t; try discriminate.
      intros H. constructor; [left; eexists; reflexivity | eapply IH, H].
    + intros H. constructor; [right; exact Et | eapply IH, H].
Qed.

(** What [extract_copyright] does on texts that are strings or false: it
    returns the first shortest surviving candidate of the strings when
    there is one, and turns to the name otherwise. *)
Lemma extract_copyright_text_ok (license_texts : list value)
    (package_name : value) :
  Forall text_ok license_texts ->
  (exists r,
      first_shortest r (survivors (strings_of license_texts))
      /\ extract_copyright license_texts package_name = Ok r)
  \/ (survivors (strings_of license_texts) = []
      /\ extract_copyright license_texts package_name
         = (name <- str_operand package_name ;; Ok (fallback name))).
Proof.
  intros Hok. unfold extract_copyright. rewrite (scan_text_ok _ _ Hok).
  cbn [bind].
  pose proof (fold_pick_first_shortest _
                (survivors_long (strings_of license_texts))) as H.
  destruct (fold_left pick (survivors (strings_of license_texts)) None)
    as [r|].
  - left. exists r. split; [exact H|].
    assert (Hr : 5 <= length r).
    { pose proof (survivors_long (strings_of license_texts)) as Hl.
      rewrite Forall_forall in Hl. apply Hl, first_shortest_In, H. }
    destruct r; [simpl in Hr; lia | reflexivity].
  - right. split; [exact H | reflexivity].
Qed.

Lemma rust_core_names (name : str) :
  existsb (str_eqb name) (map L ["libc"; "std"; "core"]%string) = true
  <-> In name [L "libc"; L "std"; L "core"].
Proof.
  rewrite existsb_exists. split.
  - intros (x & Hx & E). apply str_eqb_eq in E. subst x. exact Hx.
  - intros H. exists name. split; [exact H | apply str_eqb_eq; reflexivity].
Qed.

(** ** Properties of [extract_copyright] *)

(** C1.  For every sequence of license texts and every component name,
    [extract_copyright] returns, and returns a non-empty string: a surviving
    candidate of the texts when one exists; otherwise "Datadog, Inc." when
    the lower-cased name holds "datadog", else "The Rust Project Developers"
    when the lower-cased name holds "rust" or the name is libc, std or core,
    else "The <name> Authors" with the name as given. *)
Theorem extract_copyright_total (texts : list str) (name : str) :
  exists holder,
    extract_copyright (map VStr texts) (VStr name) = Ok holder
    /\ holder <> []
    /\ ((survivors texts <> [] /\ In holder (survivors texts))
        \/ (survivors texts = []
            /\ ((occurs (L "datadog") (lower name)
                 /\ holder = L "Datadog, Inc.")
                \/ (~ occurs (L "datadog") (lower name)
                    /\ (occurs (L "rust") (lower name)
                        \/ In name [L "libc"; L "std"; L "core"])
                    /\ holder = L "The Rust Project Developers")
                \/ (~ occurs (L "datadog") (lower name)
                    /\ ~ occurs (L "rust") (lower name)
                    /\ ~ In name [L "libc"; L "std"; L "core"]
                    /\ holder = L "The " ++ name ++ L " Authors")))).
Proof.
  destruct (extract_copyright_strings texts name) as [(r & Hr & E) | [Hnil E]].
  - exists r. split; [exact E|].
    pose proof (first_shortest_In _ _ Hr) as Hin.
    pose proof (survivors_long texts) as Hl.
    rewrite Forall_forall in Hl. specialize (Hl r Hin).
    split; [intros ->; simpl in Hl; lia|].
    left. split; [|exact Hin].
    intros Hnil. rewrite Hnil in Hin. exact Hin.
  - exists (fallback name). split; [exact E|].
    unfold fallback.
    destruct (str_in (L "datadog") (lower name)) eqn:Hd.
    + split; [discriminate|]. right. split; [exact Hnil|].
      left. split; [apply str_in_occurs, Hd | reflexivity].
    + apply str_in_not_occurs in Hd.
      destruct (str_in (L "rust") (lower name)) eqn:Hr; cbn [orb].
      * split; [discriminate|]. right. split; [exact Hnil|].
        right; left. repeat split; [exact Hd|].
        left. apply str_in_occurs, Hr.
      * apply str_in_not_occurs in Hr.
        destruct (existsb (str_eqb name) _) eqn:Hc.
        -- split; [discriminate|]. right. split; [exact Hnil|].
           right; left. repeat split; [exact Hd|].
           right. apply rust_core_names, Hc.
        -- split; [discriminate|]. right. split; [exact Hnil|].
           right; right. repeat split; [exact Hd | exact Hr|].
           intros Hin. apply rust_core_names in Hin. congruence.
Qed.

(** C2, as stated, fails: a text that holds the line 'Copyright (c) 2020
    Jane Doe <jane@example.com>' after the line 'Copyright Apple' yields
    'Apple', the shorter of its two surviving candidates. *)
Lemma jane_doe_not_always :
  has_line jane_line apple_then_jane
  /\ In apple_then_jane [apple_then_jane]
  /\ extract_copyright (map VStr [apple_then_jane]) (VStr (L "pkg"))
     = Ok (L "Apple")
  /\ L "Apple" <> L "Jane Doe".
Proof.
  split; [|split; [|split]].
  - exists (L "Copyright Apple" ++ [newline]), []. split; [|split].
    + unfold apple_then_jane. rewrite app_nil_r, app_assoc. reflexivity.
    + right. exists (L "Copyright Apple"). reflexivity.
    + left. reflexivity.
  - left. reflexivity.
  - vm_compute. reflexivity.
  - discriminate.
Qed.

(** ** The matcher on the line of the example *)

Lemma greedy_inv (A : Type) (p : ascii -> bool) (i : nat) (s : str)
    (k : nat -> str -> option A) (r : A) :
  greedy p i s k = Some r ->
  exists s1 s2, s = s1 ++ s2 /\ k (i + length s1) s2 = Some r.
Proof.
  revert i r. induction s as [|c s IH]; intros i r; simpl.
  - intros H. exists [], []. rewrite Nat.add_0_r. auto.
  - destruct (p c).
    + destruct (greedy p (S i) s k) as [r'|] eqn:E.
      * intros H; inversion H; subst.
        destruct (IH _ _ E) as (s1 & s2 & -> & Hk).
        exists (c :: s1), s2. simpl. rewrite Nat.add_succ_r. auto.
      * intros H. exists [], (c :: s). rewrite Nat.add_0_r. auto.
    + intros H. exists [], (c :: s). rewrite Nat.add_0_r. auto.
Qed.

Lemma line_end_Some (holder : str) (i : nat) (s : str) (r : found) :
  line_end holder i s = Some r -> fst r = holder /\ i <= snd r.
Proof.
  unfold line_end. cbn [run].
  destruct (startswith [newline] s) eqn:E.
  - intros H; inversion H; subst; simpl. split; [reflexivity|lia].
  - destruct s as [|c s].
    + intros H; inversion H; subst; simpl. split; [reflexivity|lia].
    + destruct (chr_eqb c "010"); [|discriminate].
      intros H; inversion H; subst; simpl. split; [reflexivity|lia].
Qed.

Lemma jane_match_unfold (p : str) :
  match_here valid_holder_pattern (jane_line ++ newline :: p)
  = match greedy isspace 47 p (line_end (L "Jane Doe")) with
    | Some r => Some r
    | None => Some (L "Jane Doe", 47)
    end.
Proof.
  lazy.
  match goal with
  | |- _ = match ?T with Some _ => _ | None => _ end => destruct T
  end; reflexivity.
Qed.

Lemma match_here_copyright (s : str) (x : found) :
  match_here valid_holder_pattern s = Some x ->
  startswith copyright_word s = true.
Proof.
  unfold match_here, valid_holder_pattern. cbn [run].
  fold copyright_word.
  destruct (startswith copyright_word s); [reflexivity | discriminate].
Qed.

Lemma finditer_from_none (skip : nat) (s : str) :
  ~ occurs copyright_word s ->
  finditer_from valid_holder_pattern skip s = [].
Proof.
  revert skip. induction s as [|c s IH]; intros skip Hno.
  - reflexivity.
  - assert (Hs : ~ occurs copyright_word s).
    { intros (b & a & ->). apply Hno. exists (c :: b), a. reflexivity. }
    cbn [finditer_from]. destruct skip as [|n]; [|apply IH, Hs].
    destruct (match_here valid_holder_pattern (c :: s)) as [[g len]|] eqn:E.
    + exfalso. apply Hno. apply match_here_copyright in E.
      apply startswith_app in E. destruct E as (rest & E).
      exists [], rest. exact E.
    + apply IH, Hs.
Qed.

Lemma finditer_from_skip (a : str) (n : nat) (s : str) :
  finditer_from valid_holder_pattern (length a + n) (a ++ s)
  = finditer_from valid_holder_pattern n s.
Proof.
  induction a as [|c a IH]; [reflexivity | exact IH].
Qed.

Lemma finditer_from_prefix (pre s : str) :
  ~ starts_in copyright_word pre s ->
  finditer_from valid_holder_pattern 0 (pre ++ s)
  = finditer_from valid_holder_pattern 0 s.
Proof.
  induction pre as [|c pre IH]; intros Hno.
  - reflexivity.
  - cbn [app finditer_from].
    destruct (match_here valid_holder_pattern (c :: pre ++ s))
      as [[g len]|] eqn:E.
    + exfalso. apply Hno. exists [], (c :: pre).
      split; [reflexivity|]. split; [discriminate|].
      eapply match_here_copyright. exact E.
    + apply IH. intros (s1 & s2 & -> & Hs2 & Hw). apply Hno.
      exists (c :: s1), s2. auto.
Qed.

Lemma jane_match_newline (p : str) :
  exists len,
    match_here valid_holder_pattern (jane_line ++ newline :: p)
    = Some (L "Jane Doe", len)
    /\ 47 <= len.
Proof.
  rewrite jane_match_unfold.
  destruct (greedy isspace 47 p (line_end (L "Jane Doe"))) as [[g len]|] eqn:E.
  - apply greedy_inv in E. destruct E as (s1 & s2 & _ & E).
    apply line_end_Some in E. simpl in E. destruct E as [-> Hlen].
    exists len. split; [reflexivity | lia].
  - exists 47. split; [reflexivity | lia].
Qed.

Lemma finditer_from_match (c : ascii) (s g : str) (len : nat) :
  match_here valid_holder_pattern (c :: s) = Some (g, len) ->
  finditer_from valid_holder_pattern 0 (c :: s)
  = g :: finditer_from valid_holder_pattern (len - 1) s.
Proof.
  intros E. cbn [finditer_from]. rewrite E. reflexivity.
Qed.

Lemma finditer_jane (pre post : str) :
  (post = [] \/ exists p, post = newline :: p) ->
  ~ starts_in copyright_word pre (jane_line ++ post) ->
  ~ occurs copyright_word post ->
  finditer valid_holder_pattern (pre ++ jane_line ++ post) = [L "Jane Doe"].
Proof.
  intros Hpost Hpre Hno. unfold finditer.
  rewrite finditer_from_prefix by exact Hpre.
  destruct Hpost as [-> | (p & ->)].
  - vm_compute. reflexivity.
  - destruct (jane_match_newline p) as (len & E & Hlen).
    change (jane_line ++ newline :: p)
      with ("C"%char :: (tl jane_line ++ [newline]) ++ p) in *.
    rewrite (finditer_from_match _ _ _ _ E). f_equal.
    replace (len - 1) with (length (tl jane_line ++ [newline]) + (len - 47))
      by (change (length (tl jane_line ++ [newline])) with 46; lia).
    rewrite finditer_from_skip. apply finditer_from_none.
    intros (b & a & ->). apply Hno. exists (newline :: b), a. reflexivity.
Qed.

Lemma survivors_of_only_statement (text : str) :
  only_statement jane_line text -> survivors_of text = [L "Jane Doe"].
Proof.
  intros (pre & post & -> & Hpost & Hpre & Hno).
  unfold survivors_of. rewrite finditer_jane by assumption.
  vm_compute. reflexivity.
Qed.

Lemma starts_inb_false (word pre rest : str) :
  starts_inb word pre rest = false -> ~ starts_in word pre rest.
Proof.
  induction pre as [|c pre IH]; intros Hb (s1 & s2 & E & Hs2 & Hw).
  - destruct s1; [simpl in E; subst; congruence | discriminate].
  - cbn [starts_inb] in Hb. apply orb_false_iff in Hb. destruct Hb as [H1 H2].
    destruct s1 as [|x s1]; simpl in E.
    + subst s2. congruence.
    + injection E as _ ->. apply (IH H2). exists s1, s2. auto.
Qed.

Lemma only_statement_check (line text pre post : str) :
  text = pre ++ line ++ post ->
  (post = [] \/ exists p, post = newline :: p) ->
  starts_inb copyright_word pre (line ++ post) = false ->
  str_in copyright_word post = false ->
  only_statement line text.
Proof.
  intros E Hpost Hpre Hno. exists pre, post. repeat split.
  - exact E.
  - exact Hpost.
  - apply starts_inb_false, Hpre.
  - apply str_in_not_occurs, Hno.
Qed.

(** C2, amended.  For any license text that holds the line 'Copyright (c)
    2020 Jane Doe <jane@example.com>', ended by the end of the text or by a
    newline, and has the word 'Copyright' nowhere else, [extract_copyright]
    applied to a sequence that holds the text returns 'Jane Doe' (neither
    the year nor the bracketed address is part of it), provided the texts
    before it have no surviving candidate of 8 characters or fewer and the
    texts after it none of fewer than 8. *)
Theorem jane_doe_extracted (before after : list str) (text name : str) :
  only_statement jane_line text ->
  Forall (fun c => 8 < length c) (survivors before) ->
  Forall (fun c => 8 <= length c) (survivors after) ->
  extract_copyright (map VStr (before ++ text :: after)) (VStr name)
  = Ok (L "Jane Doe").
Proof.
  intros Hone Hb Ha.
  assert (Hs : survivors (before ++ text :: after)
               = survivors before ++ L "Jane Doe" :: survivors after).
  { rewrite survivors_app. unfold survivors at 2. cbn [flat_map].
    rewrite (survivors_of_only_statement _ Hone). reflexivity. }
  assert (Hfs : first_shortest (L "Jane Doe")
                  (survivors (before ++ text :: after))).
  { rewrite Hs. exists (survivors before), (survivors after).
    split; [reflexivity|]. split; assumption. }
  destruct (extract_copyright_strings (before ++ text :: after) name)
    as [(r & Hr & E) | [Hnil E]].
  - rewrite E. f_equal. eapply first_shortest_unique; eassumption.
  - rewrite Hs in Hnil. destruct (survivors before); discriminate.
Qed.

Lemma jane_doe_extracted_witness :
  extract_copyright
    (map VStr ([L "Copyright 2019 Example Widgets Ltd"] ++ mit_text
               :: [L "Copyright (c) Jo Bloggs"; L "no statement here"]))
    (VStr (L "pkg"))
  = Ok (L "Jane Doe").
Proof.
  apply jane_doe_extracted.
  - apply (only_statement_check jane_line mit_text
             (L "MIT License" ++ [newline; newline])
             ([newline; newline] ++ L "Permission is hereby granted")).
    + reflexivity.
    + right. eexists. reflexivity.
    + vm_compute. reflexivity.
    + vm_compute. reflexivity.
  - vm_compute. repeat constructor.
  - vm_compute. repeat constructor.
Defined.

(** C3.  The pattern does not take the sign U+00A9 for the marker: on the
    text 'Copyright', sign, '2020 Acme Corp', whose holder 'Acme Corp' passes
    every filter, [extract_copyright] falls through to the name-based text.
    The marker the pattern accepts is the pair U+00C2 U+00A9. *)
Theorem copyright_sign_not_accepted :
  survives (L "Acme Corp") = true
  /\ extract_copyright [VStr acme_text] (VStr (L "widget"))
     = Ok (L "The widget Authors")
  /\ extract_copyright
       [VStr (L "Copyright " ++ marker ++ L " 2020 Acme Corp")]
       (VStr (L "widget"))
     = Ok (L "Acme Corp").
Proof.
  repeat split; vm_compute; reflexivity.
Qed.

(** C4.  Whenever a candidate survives, [extract_copyright] returns a
    surviving candidate of minimum length, the first such in scan order:
    every survivor before it is strictly longer, every survivor after it is
    at least as long. *)
Theorem shortest_survivor_wins (texts : list str) (name : str) :
  survivors texts <> [] ->
  exists holder,
    extract_copyright (map VStr texts) (VStr name) = Ok holder
    /\ first_shortest holder (survivors texts).
Proof.
  intros Hne.
  destruct (extract_copyright_strings texts name) as [(r & Hr & E) | [Hnil _]].
  - exists r. split; assumption.
  - contradiction.
Qed.

Lemma shortest_survivor_wins_witness :
  exists holder,
    extract_copyright
      (map VStr [L "Copyright 2019 Carol"; apple_then_jane; L "Copyright Alice"])
      (VStr (L "pkg")) = Ok holder
    /\ first_shortest holder
         (survivors [L "Copyright 2019 Carol"; apple_then_jane;
                     L "Copyright Alice"]).
Proof.
  apply shortest_survivor_wins. vm_compute. discriminate.
Defined.

(** ** Soundness of the matcher *)

Lemma exactly_span (A : Type) (p : ascii -> bool) (n i : nat) (s : str)
    (k : nat -> str -> option A) (x : A) :
  exactly p n i s k = Some x ->
  exists w s',
    s = w ++ s' /\ forallb p w = true /\ length w = n
    /\ k (i + length w) s' = Some x.
Proof.
  revert i s. induction n as [|n IH]; intros i s; cbn [exactly].
  - intros H. exists [], s. rewrite Nat.add_0_r. auto.
  - destruct s as [|c s]; [discriminate|].
    destruct (p c) eqn:Hc; [|discriminate].
    intros H. destruct (IH _ _ H) as (w & s' & -> & Hw & Hn & Hk).
    exists (c :: w), s'. simpl. rewrite Hc, Hw, Hn, Nat.add_succ_r.
    rewrite Hn in Hk. auto.
Qed.

Lemma greedy_span (A : Type) (p : ascii -> bool) (i : nat) (s : str)
    (k : nat -> str -> option A) (x : A) :
  greedy p i s k = Some x ->
  exists w s',
    s = w ++ s' /\ forallb p w = true /\ k (i + length w) s' = Some x.
Proof.
  revert i. induction s as [|c s IH]; intros i; cbn [greedy].
  - intros H. exists [], []. rewrite Nat.add_0_r. auto.
  - destruct (p c) eqn:Hc.
    + destruct (greedy p (S i) s k) as [r|] eqn:E.
      * intros H. injection H as <-.
        destruct (IH _ E) as (w & s' & -> & Hw & Hk).
        exists (c :: w), s'. simpl. rewrite Hc, Hw, Nat.add_succ_r. auto.
      * intros H. exists [], (c :: s). rewrite Nat.add_0_r. auto.
    + intros H. exists [], (c :: s). rewrite Nat.add_0_r. auto.
Qed.

Lemma lazy_span (A : Type) (p : ascii -> bool) (extra i : nat) (s : str)
    (k : nat -> str -> option A) (x : A) :
  lazy p extra i s k = Some x ->
  exists w s',
    s = w ++ s' /\ forallb p w = true /\ length w <= extra
    /\ k (i + length w) s' = Some x.
Proof.
  revert i s. induction extra as [|e IH]; intros i s.
  - destruct s; cbn [lazy]; destruct (k i _) eqn:E; try discriminate;
      intros H; injection H as <-;
      eexists [], _; rewrite Nat.add_0_r; simpl; auto.
  - destruct s as [|c s]; cbn [lazy]; destruct (k i _) eqn:E;
      try discriminate;
      try (intros H; injection H as <-;
           eexists [], _; rewrite Nat.add_0_r; simpl;
           repeat split; [lia | exact E]).
    destruct (p c) eqn:Hc; [|discriminate].
    intros H. destruct (IH _ _ H) as (w & s' & -> & Hw & Hn & Hk).
    exists (c :: w), s'. simpl. rewrite Hc, Hw, Nat.add_succ_r.
    repeat split; [lia | exact Hk].
Qed.

(** Whatever the matcher finds is a match of the pattern. *)
Lemma run_sound (A : Type) (r : regex) :
  forall (i : nat) (s : str) (g : option str)
         (k : nat -> str -> option str -> option A) (x : A),
    run r i s g k = Some x ->
    exists j s' g', matches r i s g j s' g' /\ k j s' g' = Some x.
Proof.
  induction r as [lit|p|r1 IH1 r2 IH2|r1 IH1 r2 IH2|r1 IH1|p|p|n p|lo hi p
                 |r1 IH1|]; intros i s g k x; cbn [run matches].
  - destruct (startswith lit s) eqn:E; [|discriminate].
    apply startswith_app in E. destruct E as (rest & ->).
    rewrite skipn_app, skipn_all, Nat.sub_diag. simpl.
    intros H. exists (i + length lit), rest, g. auto.
  - destruct s as [|c s]; [discriminate|].
    destruct (p c) eqn:Hc; [|discriminate].
    intros H. exists (S i), s, g. repeat split; eauto.
  - intros H. destruct (IH1 _ _ _ _ _ H) as (j1 & s1 & g1 & H1 & H').
    destruct (IH2 _ _ _ _ _ H') as (j & s' & g' & H2 & Hk).
    exists j, s', g'. split; [|exact Hk]. exists j1, s1, g1. auto.
  - destruct (run r1 i s g k) as [y|] eqn:E.
    + intros H. injection H as <-.
      destruct (IH1 _ _ _ _ _ E) as (j & s' & g' & H1 & Hk).
      exists j, s', g'. auto.
    + intros H. destruct (IH2 _ _ _ _ _ H) as (j & s' & g' & H2 & Hk).
      exists j, s', g'. auto.
  - destruct (run r1 i s g k) as [y|] eqn:E.
    + intros H. injection H as <-.
      destruct (IH1 _ _ _ _ _ E) as (j & s' & g' & H1 & Hk).
      exists j, s', g'. auto.
    + intros H. exists i, s, g. auto.
  - intros H. apply greedy_span in H. destruct H as (w & s' & -> & Hw & Hk).
    exists (i + length w), s', g. repeat split; eauto.
  - destruct s as [|c s]; [discriminate|].
    destruct (p c) eqn:Hc; [|discriminate].
    intros H. apply greedy_span in H. destruct H as (w & s' & -> & Hw & Hk).
    exists (S i + length w), s', g. split; [|exact Hk]. split; [|reflexivity].
    exists (c :: w). simpl. rewrite Hc, Hw.
    repeat split; [discriminate | lia].
  - intros H. apply exactly_span in H.
    destruct H as (w & s' & -> & Hw & Hn & Hk).
    exists (i + length w), s', g. repeat split; eauto.
  - intros H. apply exactly_span in H.
    destruct H as (w1 & s1 & -> & Hw1 & Hn1 & H).
    apply lazy_span in H. destruct H as (w2 & s' & -> & Hw2 & Hn2 & Hk).
    exists (i + length w1 + length w2), s', g. split; [|exact Hk].
    split; [|reflexivity]. exists (w1 ++ w2).
    rewrite <- app_assoc, forallb_app, Hw1, Hw2, length_app.
    repeat split; lia.
  - intros H. destruct (IH1 _ _ _ _ _ H) as (j & s' & g' & H1 & Hk).
    exists j, s', (Some (firstn (j - i) s)). split; [|exact Hk].
    split; [eauto | reflexivity].
  - destruct s as [|c s].
    + intros H. exists i, [], g. repeat split; auto.
    + destruct (chr_eqb c "010") eqn:Hc; [|discriminate].
      apply chr_eqb_eq in Hc. subst c.
      intros H. exists i, (newline :: s), g. repeat split; eauto.
Qed.

Lemma firstn_length_app (w t : str) : firstn (length w) (w ++ t) = w.
Proof.
  induction w as [|c w IH]; simpl; [destruct t; reflexivity|].
  rewrite IH. reflexivity.
Qed.

Lemma forallb_not_newline (w : str) :
  forallb not_newline w = true -> ~ In newline w.
Proof.
  intros H Hin. rewrite forallb_forall in H. specialize (H _ Hin).
  unfold not_newline in H. unfold chr_eqb in H.
  rewrite Ascii.eqb_refl in H. discriminate.
Qed.

(** A match of the pattern of line 22: the word, white space, the optional
    marker and year, and then the holder that group 1 takes. *)
Lemma match_here_shape (s g : str) (len : nat) :
  match_here valid_holder_pattern s = Some (g, len) ->
  holder_shaped g
  /\ exists mid after,
       s = L "Copyright" ++ mid ++ g ++ after
       /\ (exists sp m, mid = sp :: m /\ isspace sp = true).
Proof.
  unfold match_here. intros H. apply run_sound in H.
  destruct H as (j & s' & g' & Hm & Hk).
  unfold valid_holder_pattern in Hm. cbn [matches] in Hm.
  destruct Hm as (j1 & s1 & g1 & (Hs & _ & _) & Hm).
  destruct Hm as (j2 & s2 & g2 & ((w1 & Hs1 & Hw1 & Hne1 & _) & _) & Hm).
  destruct Hm as (j3 & s3 & g3 & Hopt1 & Hm).
  assert (E3 : exists x, s2 = x ++ s3).
  { destruct Hopt1 as [(j' & s4 & g4 & (-> & _ & _) & (w & -> & _) & _)
                      | (_ & -> & _)].
    - exists (L "(c)" ++ w). rewrite <- app_assoc. reflexivity.
    - exists []. reflexivity. }
  destruct Hm as (j4 & s4 & g4 & Hopt2 & Hm).
  assert (E4 : exists x, s3 = x ++ s4).
  { destruct Hopt2 as [(j' & s5 & g5 & (-> & _ & _) & (w & -> & _) & _)
                      | (_ & -> & _)].
    - exists (marker ++ w). rewrite <- app_assoc. reflexivity.
    - exists []. reflexivity. }
  destruct Hm as (j5 & s5 & g5 & Hopt3 & Hm).
  assert (E5 : exists x, s4 = x ++ s5).
  { destruct Hopt3 as [(j' & s6 & g6 & ((w & -> & _) & _)
                        & (j'' & s7 & g7 & ((w' & -> & _) & _)
                           & (w'' & -> & _) & _))
                      | (_ & -> & _)].
    - exists (w ++ w' ++ w''). rewrite <- !app_assoc. reflexivity.
    - exists []. reflexivity. }
  destruct Hm as (j6 & s6 & g6 & Hgroup & Hm).
  destruct Hgroup as ((g0 & j7 & s7 & g7 & ((c & Hs5 & Hc) & Hj7 & _)
                       & (w & Hs7 & Hw & Hlen & Hj6) & _) & Hg6).
  assert (Eg : g6 = Some (c :: w)).
  { rewrite Hg6, Hs5, Hs7, Hj6, Hj7.
    replace (S j5 + length w - j5) with (S (length w)) by lia.
    cbn [firstn]. rewrite firstn_length_app. reflexivity. }
  destruct Hm as (j8 & s8 & g8 & Hopt4 & Hm).
  assert (Eg8 : g8 = g6).
  { destruct Hopt4 as [(j' & s9 & g9 & (_ & ->)
                        & (j'' & s10 & g10 & (_ & _ & ->)
                           & (j3' & s11 & g11 & (_ & ->) & _ & _ & ->)))
                      | (_ & _ & ->)]; reflexivity. }
  destruct Hm as (j9 & s9 & g9 & (_ & Hg9) & Hend).
  assert (Eg' : g' = Some (c :: w)).
  { destruct Hend as [(_ & _ & ->) | (_ & _ & _ & ->)]; congruence. }
  rewrite Eg' in Hk. injection Hk as <- _.
  split.
  - exists c, w. repeat split; try assumption; try lia.
    apply forallb_not_newline, Hw.
  - destruct E3 as (x3 & E3), E4 as (x4 & E4), E5 as (x5 & E5).
    exists (w1 ++ x3 ++ x4 ++ x5), s6. split.
    + rewrite Hs, Hs1, E3, E4, E5, Hs5, Hs7.
      rewrite <- !app_assoc. reflexivity.
    + destruct w1 as [|sp w1]; [congruence|].
      exists sp, (w1 ++ x3 ++ x4 ++ x5). split; [reflexivity|].
      simpl in Hw1. apply andb_true_iff in Hw1. tauto.
Qed.

Lemma finditer_from_In (skip : nat) (text g : str) :
  In g (finditer_from valid_holder_pattern skip text) ->
  exists before s len,
    text = before ++ s
    /\ match_here valid_holder_pattern s = Some (g, len).
Proof.
  revert skip. induction text as [|c text IH]; intros skip; cbn [finditer_from].
  - intros [].
  - assert (Hrec : forall n,
               In g (finditer_from valid_holder_pattern n text) ->
               exists before s len,
                 c :: text = before ++ s
                 /\ match_here valid_holder_pattern s = Some (g, len)).
    { intros n Hin. destruct (IH _ Hin) as (before & s & len & -> & Hm).
      exists (c :: before), s, len. auto. }
    destruct skip as [|n]; [|apply Hrec].
    destruct (match_here valid_holder_pattern (c :: text))
      as [[g1 len]|] eqn:E; [|apply Hrec].
    intros [<- | Hin]; [|eapply Hrec; eassumption].
    exists [], (c :: text), len. auto.
Qed.

(** What [re.finditer] yields on a text with the pattern of line 22. *)
Lemma finditer_shape (text g : str) :
  In g (finditer valid_holder_pattern text) ->
  holder_shaped g
  /\ exists before mid after,
       text = before ++ L "Copyright" ++ mid ++ g ++ after
       /\ (exists sp m, mid = sp :: m /\ isspace sp = true).
Proof.
  intros Hin. apply finditer_from_In in Hin.
  destruct Hin as (before & s & len & -> & Hm).
  apply match_here_shape in Hm.
  destruct Hm as (Hg & mid & after & -> & Hmid).
  split; [exact Hg|]. exists before, mid, after. auto.
Qed.

(** ** The clean-up of a candidate *)

Lemma lstrip_by_head (p : ascii -> bool) (s : str) (c : ascii) (t : str) :
  lstrip_by p s = c :: t -> p c = false.
Proof.
  induction s as [|d s IH]; simpl; [discriminate|].
  destruct (p d) eqn:Hd; [exact IH|].
  intros H. injection H as <- _. exact Hd.
Qed.

Lemma lstrip_by_suffix (p : ascii -> bool) (s : str) :
  exists a, s = a ++ lstrip_by p s.
Proof.
  induction s as [|d s (a & IH)]; simpl.
  - exists []. reflexivity.
  - destruct (p d).
    + exists (d :: a). simpl. rewrite <- IH. reflexivity.
    + exists []. reflexivity.
Qed.

Lemma lstrip_by_snoc (p : ascii -> bool) (l : str) (c : ascii) :
  p c = false -> lstrip_by p (l ++ [c]) = lstrip_by p l ++ [c].
Proof.
  intros Hc. induction l as [|d l IH]; simpl.
  - rewrite Hc. reflexivity.
  - destruct (p d); [exact IH | reflexivity].
Qed.

Lemma rstrip_by_prefix (p : ascii -> bool) (s : str) :
  exists t, s = rstrip_by p s ++ t.
Proof.
  unfold rstrip_by. destruct (lstrip_by_suffix p (rev s)) as (a & E).
  exists (rev a). rewrite <- rev_app_distr, <- E, rev_involutive. reflexivity.
Qed.

Lemma rstrip_by_last (p : ascii -> bool) (s a : str) (z : ascii) :
  rstrip_by p s = a ++ [z] -> p z = false.
Proof.
  unfold rstrip_by. intros H.
  apply (f_equal (@rev ascii)) in H.
  rewrite rev_involutive, rev_app_distr in H. simpl in H.
  eapply lstrip_by_head. exact H.
Qed.

Lemma rstrip_by_cons (p : ascii -> bool) (c : ascii) (w : str) :
  p c = false -> exists t, rstrip_by p (c :: w) = c :: t.
Proof.
  intros Hc. unfold rstrip_by. simpl.
  rewrite (lstrip_by_snoc _ _ _ Hc), rev_app_distr. simpl. eauto.
Qed.

Lemma single_spaced_prefix (a b : str) :
  single_spaced (a ++ b) -> single_spaced a.
Proof.
  induction a as [|c a IH]; simpl; [trivial|].
  intros [Hc Ht]. split; [|apply IH, Ht].
  intros Hs. destruct (Hc Hs) as [-> Hd]. split; [reflexivity|].
  destruct a; [exact I | exact Hd].
Qed.

Lemma sub_spaces_from_spaced (s : str) (in_run : bool) :
  single_spaced (sub_spaces_from in_run s)
  /\ (in_run = true ->
      match sub_spaces_from in_run s with
      | [] => True
      | d :: _ => isspace d = false
      end).
Proof.
  revert in_run. induction s as [|c s IH]; intros in_run; cbn [sub_spaces_from].
  - split; [exact I | trivial].
  - destruct (isspace c) eqn:Hc.
    + destruct in_run.
      * apply IH.
      * split; [|discriminate]. cbn [single_spaced].
        destruct (IH true) as [H1 H2]. split; [|exact H1].
        intros _. split; [reflexivity | apply H2; reflexivity].
    + split.
      * cbn [single_spaced]. split; [congruence | apply IH].
      * intros _. exact Hc.
Qed.

Lemma sub_spaces_from_length (s : str) (in_run : bool) :
  length (sub_spaces_from in_run s) <= length s.
Proof.
  revert in_run. induction s as [|c s IH]; intros in_run; cbn [sub_spaces_from].
  - apply Nat.le_refl.
  - destruct (isspace c); [destruct in_run|]; simpl;
      try (apply le_n_S, IH); apply Nat.le_le_succ_r, IH.
Qed.

Lemma sub_spaces_head (s : str) (d : ascii) (t : str) :
  sub_spaces s = d :: t ->
  (forall c u, s = c :: u -> isspace c = false) ->
  isspace d = false.
Proof.
  unfold sub_spaces. destruct s as [|c u]; cbn [sub_spaces_from];
    [discriminate|].
  intros H Hs. rewrite (Hs c u eq_refl) in H. injection H as <- _.
  apply (Hs c u eq_refl).
Qed.

Lemma strip_head (g : str) (c : ascii) (u : str) :
  strip g = c :: u -> isspace c = false.
Proof.
  unfold strip. intros H.
  destruct (rstrip_by_prefix isspace (lstrip_by isspace g)) as (t & E).
  rewrite H in E. simpl in E. eapply lstrip_by_head. exact E.
Qed.

Lemma strip_length (g : str) : length (strip g) <= length g.
Proof.
  unfold strip.
  destruct (rstrip_by_prefix isspace (lstrip_by isspace g)) as (t & E).
  destruct (lstrip_by_suffix isspace g) as (a & E').
  rewrite E' at 2. rewrite E at 2. rewrite !length_app. lia.
Qed.

(** The candidate after lines 40-44. *)
Lemma clean_tidy (g : str) :
  single_spaced (clean g)
  /\ (forall c t, clean g = c :: t -> isspace c = false)
  /\ (forall a z, clean g = a ++ [z] -> ~ In z punctuation)
  /\ length (clean g) <= length g.
Proof.
  unfold clean, rstrip.
  set (p := fun c => existsb (chr_eqb c) (L ".,;:")).
  destruct (rstrip_by_prefix p (sub_spaces (strip g))) as (t & E).
  split; [|split; [|split]].
  - apply (single_spaced_prefix _ t). rewrite <- E.
    apply (sub_spaces_from_spaced _ false).
  - intros c u Hc. rewrite Hc in E. simpl in E.
    eapply sub_spaces_head; [exact E|]. apply strip_head.
  - intros a z Hz Hin. apply rstrip_by_last in Hz. unfold p in Hz.
    apply not_true_iff_false in Hz. apply Hz.
    apply existsb_exists. exists z. split; [exact Hin|].
    apply chr_eqb_eq. reflexivity.
  - pose proof (strip_length g) as H1.
    pose proof (sub_spaces_from_length (strip g) false) as H2.
    apply (f_equal (@length ascii)) in E. rewrite length_app in E.
    unfold sub_spaces in *. lia.
Qed.

Lemma upper_plain (c : ascii) :
  upper_A_Z c = true ->
  isspace c = false /\ existsb (chr_eqb c) (L ".,;:") = false.
Proof.
  destruct c as [[] [] [] [] [] [] [] []]; vm_compute;
    intros H; try discriminate H; split; reflexivity.
Qed.

Lemma clean_head (c : ascii) (w : str) :
  upper_A_Z c = true -> exists t, clean (c :: w) = c :: t.
Proof.
  intros Hc. destruct (upper_plain _ Hc) as [Hs Hp].
  unfold clean, strip, rstrip. cbn [lstrip_by]. rewrite Hs.
  destruct (rstrip_by_cons isspace c w Hs) as (t1 & ->).
  unfold sub_spaces. cbn [sub_spaces_from]. rewrite Hs.
  apply rstrip_by_cons. exact Hp.
Qed.

(** ** The holder that comes from a text *)

Lemma single_spaced_spaces (s : str) (c : ascii) :
  single_spaced s -> In c s -> isspace c = true -> c = " "%char.
Proof.
  induction s as [|d s IH]; simpl; [tauto|].
  intros [Hd Hs] [<- | Hin] Hc; [apply Hd, Hc | apply IH; assumption].
Qed.

Lemma survivor_origin (texts : list str) (r : str) :
  In r (survivors texts) ->
  exists text g,
    In text texts /\ In g (finditer valid_holder_pattern text)
    /\ r = clean g /\ survives r = true.
Proof.
  unfold survivors, survivors_of. intros H.
  apply in_flat_map in H. destruct H as (text & Htext & H).
  apply filter_In in H. destruct H as [H Hs].
  apply in_map_iff in H. destruct H as (g & <- & Hg).
  exists text, g. auto.
Qed.

Lemma survivor_shape (texts : list str) (r : str) :
  In r (survivors texts) ->
  exists c t,
    r = c :: t /\ upper_A_Z c = true
    /\ 5 <= length r <= 80 /\ 3 <= alphas r /\ boilerplate r = false
    /\ single_spaced r /\ ~ In newline r
    /\ (forall a z, r = a ++ [z] -> ~ In z punctuation).
Proof.
  intros H. destruct (survivor_origin _ _ H) as (text & g & _ & Hg & -> & Hs).
  destruct (finditer_shape _ _ Hg) as ((c & w & -> & Hc & _) & _).
  destruct (clean_head c w Hc) as (t & E).
  destruct (clean_tidy (c :: w)) as (Hsp & _ & Hlast & _).
  unfold survives in Hs. rewrite !andb_true_iff in Hs.
  destruct Hs as [[[Hb H5] H80] H3].
  apply negb_true_iff in Hb. apply Nat.leb_le in H5, H80, H3.
  exists c, t. repeat split; try assumption.
  intros Hin. pose proof (single_spaced_spaces _ _ Hsp Hin eq_refl) as E'.
  discriminate E'.
Qed.

(** ** The aggregation *)

Lemma get_field (d : list (value * value)) (key : str) (default : value) :
  get (VDict d) key default = Ok (field d key default).
Proof.
  unfold get, field. destruct (dict_find key d); reflexivity.
Qed.

(** [extract_copyright] never returns the empty string, whatever the types
    of its arguments. *)
Lemma extract_copyright_nonempty (license_texts : list value)
    (package_name : value) (holder : str) :
  extract_copyright license_texts package_name = Ok holder ->
  nonempty holder = true.
Proof.
  unfold extract_copyright.
  destruct (scan None license_texts) as [best|e]; cbn [bind]; [|discriminate].
  destruct best as [b|]; cbn [is_unset negb].
  - destruct (nonempty b) eqn:Hb; cbn [negb].
    + intros H; inversion H; subst; exact Hb.
    + destruct (str_operand package_name); cbn [bind]; [|discriminate].
      intros H; inversion H; subst. unfold fallback.
      repeat (match goal with
              | |- context [if ?c then _ else _] => destruct c
              end); reflexivity.
  - destruct (str_operand package_name); cbn [bind]; [|discriminate].
    intros H; inversion H; subst. unfold fallback.
    repeat (match goal with
            | |- context [if ?c then _ else _] => destruct c
            end); reflexivity.
Qed.

(** One step of the loop: the entry is skipped when its name is a key
    already, and stored under its name with its own summary otherwise. *)
Lemma visit_step (components : odict) (lib : value) :
  visit components lib
  = (name <- name_of lib ;;
     seen <- contains components name ;;
     if seen then Ok components
     else s <- summarise lib ;; Ok (components ++ [(name, s)])).
Proof.
  unfold visit, name_of, summarise.
  destruct lib; try reflexivity.
  rewrite !get_field. cbn [bind].
  destruct (contains components _) as [[|]|]; cbn [bind]; try reflexivity.
  destruct (iterate _) as [lics|]; cbn [bind]; [|reflexivity].
  destruct (texts_of lics) as [texts|]; cbn [bind]; [|reflexivity].
  destruct (extract_copyright texts _) as [holder|] eqn:E; cbn [bind];
    [|reflexivity].
  rewrite (extract_copyright_nonempty _ _ _ E). reflexivity.
Qed.

Lemma summarise_component (lib : value) (s : summary) (name : value) :
  summarise lib = Ok s -> name_of lib = Ok name -> component s = name.
Proof.
  unfold summarise, name_of. destruct lib; try discriminate.
  rewrite !get_field. cbn [bind].
  destruct (iterate _) as [lics|]; cbn [bind]; [|discriminate].
  destruct (texts_of lics) as [texts|]; cbn [bind]; [|discriminate].
  destruct (extract_copyright texts _) as [holder|]; cbn [bind];
    [|discriminate].
  intros H1 H2. inversion H1; inversion H2; subst. reflexivity.
Qed.

Lemma visit_Ok (components out : odict) (lib : value) :
  visit components lib = Ok out ->
  exists name,
    name_of lib = Ok name
    /\ ((contains components name = Ok true /\ out = components)
        \/ (contains components name = Ok false
            /\ exists s, summarise lib = Ok s
                         /\ component s = name
                         /\ out = components ++ [(name, s)])).
Proof.
  rewrite visit_step.
  destruct (name_of lib) as [name|] eqn:En; cbn [bind]; [|discriminate].
  destruct (contains components name) as [[|]|] eqn:Ec; cbn [bind];
    try discriminate.
  - intros H; inversion H; subst. exists name. split; [reflexivity|].
    left. split; [exact Ec | reflexivity].
  - destruct (summarise lib) as [s|] eqn:Es; cbn [bind]; [|discriminate].
    intros H; inversion H; subst. exists name. split; [reflexivity|]. right.
    split; [exact Ec|]. exists s. repeat split.
    eapply summarise_component; eassumption.
Qed.

Lemma contains_false (components : odict) (key : value) :
  contains components key = Ok false ->
  hashable key = true
  /\ Forall (fun item => key_eqb (fst item) key = false) components.
Proof.
  unfold contains. destruct (hashable key); [|discriminate].
  intros H. injection H as H'. split; [reflexivity|].
  apply Forall_forall. intros item Hin.
  destruct (key_eqb (fst item) key) eqn:E; [exfalso | reflexivity].
  apply not_true_iff_false in H'. apply H'.
  apply existsb_exists. exists item. split; assumption.
Qed.

Lemma str_eqb_refl (s : str) : str_eqb s s = true.
Proof. apply str_eqb_eq. reflexivity. Qed.

Lemma bytes_eqb_refl (b : bytes) : bytes_eqb b b = true.
Proof.
  induction b as [|x b IH]; simpl; [reflexivity|].
  rewrite (Byte.byte_dec_lb (eq_refl x)). exact IH.
Qed.

Lemma number_eqb_refl (x : Z * Z) : number_eqb x x = true.
Proof. unfold number_eqb. apply Z.eqb_refl. Qed.

Lemma key_eqb_refl (key : value) : hashable key = true -> key_eqb key key = true.
Proof.
  induction key as [|b|z|f|s|b|t|l|a IHa b IHb|l|d]; simpl;
    try discriminate; intros H.
  - reflexivity.
  - apply number_eqb_refl.
  - apply number_eqb_refl.
  - destruct f as [m e|n|o]; simpl.
    + apply number_eqb_refl.
    + destruct n; reflexivity.
    + apply Nat.eqb_refl.
  - apply str_eqb_refl.
  - apply bytes_eqb_refl.
  - destruct t; simpl; apply Z.eqb_refl.
  - apply andb_true_iff in H. destruct H as [Ha Hb].
    rewrite (IHa Ha), (IHb Hb). reflexivity.
Qed.

Lemma distinct_keys_snoc (components : odict) (key : value) (s : summary) :
  distinct_keys components ->
  Forall (fun item => key_eqb (fst item) key = false) components ->
  distinct_keys (components ++ [(key, s)]).
Proof.
  induction components as [|item rest IH]; simpl.
  - intros _ _. split; [constructor | exact I].
  - intros [Hitem Hrest] Hall. inversion Hall; subst. split.
    + apply Forall_app. split; [exact Hitem|]. constructor; [assumption|constructor].
    + apply IH; assumption.
Qed.

(** What a run of the loop adds: every new item is stored under the name
    of one of the entries, holds that name as its component, and the keys
    stay distinct. *)
Lemma visit_all_Ok (libs : list value) (components out : odict) :
  visit_all components libs = Ok out ->
  exists added,
    out = components ++ added
    /\ Forall (fun item => exists lib,
                   In lib libs /\ name_of lib = Ok (fst item)
                   /\ component (snd item) = fst item
                   /\ summarise lib = Ok (snd item)) added
    /\ (distinct_keys components -> distinct_keys out).
Proof.
  revert components out.
  induction libs as [|lib libs IH]; intros components out.
  - simpl. intros H; inversion H. exists []. rewrite app_nil_r.
    repeat split; [constructor | auto].
  - cbn [visit_all].
    destruct (visit components lib) as [mid|] eqn:Ev; cbn [bind];
      [|discriminate].
    intros Hrest. destruct (IH _ _ Hrest) as (added & -> & Hadded & Hkeys).
    assert (Hadded' : Forall (fun item => exists lib0,
                In lib0 (lib :: libs) /\ name_of lib0 = Ok (fst item)
                /\ component (snd item) = fst item
                /\ summarise lib0 = Ok (snd item)) added).
    { eapply Forall_impl; [|exact Hadded].
      intros item (lib0 & Hin & Hn). exists lib0. split; [right|]; assumption. }
    destruct (visit_Ok _ _ _ Ev)
      as (name & En & [[_ ->] | (Hc & s & Hs & Hcomp & ->)]).
    + exists added. repeat split; assumption.
    + exists ((name, s) :: added).
      split; [rewrite <- app_assoc; reflexivity|]. split.
      * constructor; [|exact Hadded'].
        exists lib.
        repeat split; [left; reflexivity | exact En | exact Hcomp | exact Hs].
      * intros Hd. apply Hkeys. apply distinct_keys_snoc; [exact Hd|].
        apply contains_false, Hc.
Qed.

Lemma visit_all_app (l1 l2 : list value) (components : odict) :
  visit_all components (l1 ++ l2)
  = (mid <- visit_all components l1 ;; visit_all mid l2).
Proof.
  revert components. induction l1 as [|lib l1 IH]; intros components.
  - reflexivity.
  - cbn [app visit_all].
    destruct (visit components lib); cbn [bind]; [apply IH | reflexivity].
Qed.

Lemma parse_entries (data : value) :
  parse_yml_to_csv data = (libs <- entries data ;; visit_all [] libs).
Proof.
  unfold parse_yml_to_csv, entries.
  destruct (get data _ _); cbn [bind]; [|reflexivity].
  destruct (iterate _); reflexivity.
Qed.

Lemma lookup_app_miss (key : value) (l1 l2 : odict) :
  Forall (fun item => key_eqb (fst item) key = false) l1 ->
  lookup key (l1 ++ l2) = lookup key l2.
Proof.
  unfold lookup. induction 1 as [|item l1 Hitem _ IH]; simpl.
  - reflexivity.
  - rewrite Hitem. exact IH.
Qed.

(** The summary of the first entry of a name is what the dictionary holds
    under that name at the end of the loop. *)
Lemma visit_all_first (before after : list value) (lib name : value)
    (components : odict) :
  visit_all [] (before ++ lib :: after) = Ok components ->
  name_of lib = Ok name ->
  Forall (fun other => forall n, name_of other = Ok n -> key_eqb n name = false)
    before ->
  exists s,
    summarise lib = Ok s
    /\ component s = name
    /\ lookup name components = Some s.
Proof.
  intros Hrun Hname Hfirst.
  rewrite visit_all_app in Hrun.
  destruct (visit_all [] before) as [c1|] eqn:E1; cbn [bind] in Hrun;
    [|discriminate].
  cbn [visit_all] in Hrun.
  destruct (visit c1 lib) as [c2|] eqn:E2; cbn [bind] in Hrun; [|discriminate].
  destruct (visit_all_Ok _ _ _ E1) as (added1 & -> & Hadded1 & _).
  destruct (visit_all_Ok _ _ _ Hrun) as (added3 & -> & _ & _).
  simpl in *.
  assert (Hmiss : Forall (fun item => key_eqb (fst item) name = false) added1).
  { rewrite Forall_forall in *. intros item Hin.
    destruct (Hadded1 item Hin) as (lib0 & Hin0 & Hn0 & _).
    eapply Hfirst; eassumption. }
  destruct (visit_Ok _ _ _ E2)
    as (name' & En & [[Hc _] | (Hc & s & Hs & Hcomp & ->)]);
    rewrite Hname in En; injection En as <-.
  - exfalso. unfold contains in Hc.
    destruct (hashable name); [|discriminate].
    inversion Hc as [Hex]. apply existsb_exists in Hex.
    destruct Hex as (item & Hin & Heq).
    rewrite Forall_forall in Hmiss. rewrite (Hmiss item Hin) in Heq.
    discriminate.
  - exists s. repeat split; [exact Hs | exact Hcomp |].
    rewrite <- app_assoc, lookup_app_miss by exact Hmiss.
    unfold lookup. simpl.
    rewrite key_eqb_refl; [reflexivity|].
    apply contains_false in Hc. tauto.
Qed.

(** C5.  For every manifest and every component name in it, the dictionary
    that the aggregation returns holds, under that name, the summary of the
    first entry with the name: its component, origin and license are the
    fields of that entry and its copyright is what [extract_copyright]
    finds in that entry's license texts, whatever the entries after it hold;
    and no two items of the dictionary share a name. *)
Theorem first_record_wins (data : value) (before after : list value)
    (lib name : value) (components : odict) :
  entries data = Ok (before ++ lib :: after) ->
  name_of lib = Ok name ->
  Forall (fun other => forall n, name_of other = Ok n -> key_eqb n name = false)
    before ->
  parse_yml_to_csv data = Ok components ->
  exists s,
    summarise lib = Ok s
    /\ component s = name
    /\ lookup name components = Some s
    /\ distinct_keys components.
Proof.
  intros Hentries Hname Hfirst Hparse.
  rewrite parse_entries, Hentries in Hparse. cbn [bind] in Hparse.
  destruct (visit_all_first _ _ _ _ _ Hparse Hname Hfirst) as (s & Hs & Hc & Hl).
  exists s. repeat split; try assumption.
  destruct (visit_all_Ok _ _ _ Hparse) as (added & _ & _ & Hd).
  apply Hd. exact I.
Qed.

Lemma first_record_wins_witness :
  exists s,
    summarise serde_1_0 = Ok s
    /\ component s = text "serde"
    /\ lookup (text "serde") serde_components = Some s
    /\ distinct_keys serde_components.
Proof.
  apply (first_record_wins serde_manifest [anyhow_1_0] [serde_1_1]
           serde_1_0 (text "serde") serde_components).
  - reflexivity.
  - reflexivity.
  - constructor; [|constructor].
    intros n H. vm_compute in H. injection H as <-. reflexivity.
  - vm_compute. reflexivity.
Defined.

(** ** The writer *)

Lemma replace_semicolons (s : str) : semicolons s (replace "," ";" s).
Proof.
  unfold semicolons, replace. induction s as [|c s IH]; simpl.
  - constructor.
  - constructor; [reflexivity | exact IH].
Qed.

Lemma replace_no_comma (s : str) : ~ In ","%char (replace "," ";" s).
Proof.
  unfold replace. intros H. apply in_map_iff in H.
  destruct H as (c & E & _).
  destruct (chr_eqb c ",") eqn:Ec.
  - discriminate.
  - apply not_true_iff_false in Ec. apply Ec, chr_eqb_eq. exact E.
Qed.

Lemma replace_absent (a b : ascii) (s : str) : ~ In a s -> replace a b s = s.
Proof.
  unfold replace. induction s as [|c s IH]; simpl; intros H.
  - reflexivity.
  - destruct (chr_eqb c a) eqn:E.
    + apply chr_eqb_eq in E. subst. tauto.
    + rewrite IH by tauto. reflexivity.
Qed.

Lemma write_row_textual (x : summary) :
  textual x -> write_row x = Ok (line_of x).
Proof.
  intros (c & o & l & h & ->).
  unfold write_row, escape, line_of, row_text, columns.
  cbn [bind component origin license copyright text_of map join].
  rewrite <- !app_assoc. reflexivity.
Qed.

Lemma write_row_Ok (x : summary) (row : str) :
  write_row x = Ok row -> textual x.
Proof.
  destruct x as [c o l h]. unfold write_row, escape. cbn.
  destruct c; cbn; try discriminate.
  destruct o; cbn; try discriminate.
  destruct l; cbn; try discriminate.
  destruct h; cbn; try discriminate.
  intros _. repeat eexists.
Qed.

Lemma write_rows_textual (xs : list summary) :
  Forall textual xs -> write_rows xs = Ok (concat (map line_of xs)).
Proof.
  induction 1 as [|x xs Hx _ IH]; cbn [write_rows map concat].
  - reflexivity.
  - rewrite (write_row_textual _ Hx), IH. reflexivity.
Qed.

Lemma write_rows_Ok (xs : list summary) (rows : str) :
  write_rows xs = Ok rows -> Forall textual xs.
Proof.
  revert rows. induction xs as [|x xs IH]; intros rows; cbn [write_rows].
  - constructor.
  - destruct (write_row x) as [row|] eqn:Er; cbn [bind]; [|discriminate].
    destruct (write_rows xs) as [rest|]; cbn [bind]; [|discriminate].
    intros _. constructor; [eapply write_row_Ok; eassumption | eauto].
Qed.

Lemma keyed_textual (xs : list summary) :
  Forall textual xs ->
  keyed xs = Ok (map tagged (map (fun x => (key_of x, x)) xs)).
Proof.
  induction 1 as [|x xs Hx _ IH]; cbn [keyed map].
  - reflexivity.
  - destruct Hx as (c & o & l & h & ->). rewrite IH. reflexivity.
Qed.

Lemma keyed_Ok (xs : list summary) (ks : list (sortkey * summary)) :
  keyed xs = Ok ks -> map snd ks = xs.
Proof.
  revert ks. induction xs as [|x xs IH]; intros ks; cbn [keyed].
  - intros H; inversion H; reflexivity.
  - destruct (sort_key x) as [k|]; cbn [bind]; [|discriminate].
    destruct (keyed xs) as [ks'|]; cbn [bind]; [|discriminate].
    intros H; inversion H. cbn [map snd]. rewrite (IH ks' eq_refl).
    reflexivity.
Qed.

(** *** The order of strings *)

Lemma str_ltb_asym (a b : str) : str_ltb a b = true -> str_ltb b a = false.
Proof.
  revert b. induction a as [|x a IH]; intros [|y b]; simpl; try congruence.
  destruct (Nat.ltb_spec (ord x) (ord y)), (Nat.ltb_spec (ord y) (ord x)),
    (Nat.eqb_spec (ord x) (ord y)), (Nat.eqb_spec (ord y) (ord x));
    simpl; try lia; try congruence; auto.
Qed.

Lemma str_le_trans (a b c : str) : str_le a b -> str_le b c -> str_le a c.
Proof.
  unfold str_le. revert b c.
  induction a as [|x a IH]; intros [|y b] [|z c]; simpl; try congruence.
  destruct (Nat.ltb_spec (ord y) (ord x)), (Nat.ltb_spec (ord z) (ord y)),
    (Nat.ltb_spec (ord z) (ord x)),
    (Nat.eqb_spec (ord y) (ord x)), (Nat.eqb_spec (ord z) (ord y)),
    (Nat.eqb_spec (ord z) (ord x));
    simpl; try lia; try congruence; eauto.
Qed.

(** *** The sort *)

Section SortedFacts.

Variable A : Type.

Lemma place_perm (kx : str * A) (l : list (str * A)) :
  Permutation (place kx l) (kx :: l).
Proof.
  induction l as [|ky l IH]; simpl.
  - apply Permutation_refl.
  - destruct (str_ltb (fst ky) (fst kx)).
    + eapply perm_trans; [apply perm_skip, IH | apply perm_swap].
    + apply Permutation_refl.
Qed.

Lemma arranged_perm (l : list (str * A)) : Permutation (arranged l) l.
Proof.
  induction l as [|kx l IH]; simpl.
  - constructor.
  - eapply perm_trans; [apply place_perm | apply perm_skip, IH].
Qed.

Lemma place_sorted (kx : str * A) (l : list (str * A)) :
  StronglySorted key_le l -> StronglySorted key_le (place kx l).
Proof.
  induction 1 as [|ky l Hl IH Hky]; simpl.
  - repeat constructor.
  - destruct (str_ltb (fst ky) (fst kx)) eqn:E.
    + constructor; [exact IH|].
      eapply Permutation_Forall;
        [apply Permutation_sym, place_perm|].
      constructor; [|exact Hky].
      apply str_ltb_asym, E.
    + constructor; [constructor; assumption|].
      constructor; [exact E|].
      eapply Forall_impl; [|exact Hky].
      intros kz Hkz. eapply str_le_trans; [exact E | exact Hkz].
Qed.

Lemma arranged_sorted (l : list (str * A)) :
  StronglySorted key_le (arranged l).
Proof.
  induction l as [|kx l IH]; simpl.
  - constructor.
  - apply place_sorted, IH.
Qed.

(** On string keys no comparison raises, and the sort of line 129 gives
    the stable sorted arrangement. *)
Lemma insert_keyed_strings (kx : str * A) (l : list (str * A)) :
  insert_keyed (tagged kx) (map tagged l) = Ok (map tagged (place kx l)).
Proof.
  induction l as [|ky l IH]; cbn [map insert_keyed place]; [reflexivity|].
  cbn [tagged fst key_ltb bind]. fold (tagged kx).
  destruct (str_ltb (fst ky) (fst kx)).
  - rewrite IH. reflexivity.
  - reflexivity.
Qed.

Lemma sorted_strings (l : list (str * A)) :
  sorted (map tagged l) = Ok (map tagged (arranged l)).
Proof.
  induction l as [|kx l IH]; cbn [map sorted]; [reflexivity|].
  rewrite IH. cbn [bind]. apply insert_keyed_strings.
Qed.

(** Whatever the keys, a sort that ends gives the items it was given. *)
Lemma insert_keyed_Ok (kx : sortkey * A) (l out : list (sortkey * A)) :
  insert_keyed kx l = Ok out -> Permutation out (kx :: l).
Proof.
  revert out. induction l as [|ky l IH]; intros out; cbn [insert_keyed].
  - intros H. injection H as <-. apply Permutation_refl.
  - destruct (key_ltb (fst ky) (fst kx)) as [[|]|]; cbn [bind];
      try discriminate.
    + destruct (insert_keyed kx l) as [rest|]; cbn [bind]; [|discriminate].
      intros H. injection H as <-.
      eapply perm_trans; [apply perm_skip, IH; reflexivity | apply perm_swap].
    + intros H. injection H as <-. apply Permutation_refl.
Qed.

Lemma sorted_Ok (l out : list (sortkey * A)) :
  sorted l = Ok out -> Permutation out l.
Proof.
  revert out. induction l as [|kx l IH]; intros out; cbn [sorted].
  - intros H. injection H as <-. constructor.
  - destruct (sorted l) as [done|]; cbn [bind]; [|discriminate].
    intros H. apply insert_keyed_Ok in H.
    eapply perm_trans; [exact H | apply perm_skip, IH; reflexivity].
Qed.

End SortedFacts.

Lemma written_order_perm (xs : list summary) :
  Permutation (written_order xs) xs.
Proof.
  unfold written_order.
  eapply perm_trans; [apply Permutation_map, arranged_perm|].
  rewrite map_map. simpl. rewrite map_id. apply Permutation_refl.
Qed.

Lemma snd_tagged (A : Type) (l : list (str * A)) :
  map snd (map tagged l) = map snd l.
Proof. rewrite map_map. reflexivity. Qed.

Lemma strongly_sorted_values (l : list (str * summary)) :
  StronglySorted (@key_le summary) l ->
  Forall (fun kx => fst kx = key_of (snd kx)) l ->
  StronglySorted by_key (map snd l).
Proof.
  induction 1 as [|kx l Hl IH Hkx]; intros Hk; simpl.
  - constructor.
  - inversion Hk as [|? ? Hk1 Hk2]; subst. constructor; [auto|].
    apply Forall_map. rewrite Forall_forall in *.
    intros ky Hin. unfold by_key.
    rewrite <- Hk1, <- (Hk2 ky Hin). apply Hkx, Hin.
Qed.

Lemma written_order_sorted (xs : list summary) :
  StronglySorted by_key (written_order xs).
Proof.
  unfold written_order. apply strongly_sorted_values.
  - apply arranged_sorted.
  - eapply Permutation_Forall; [apply Permutation_sym, arranged_perm|].
    apply Forall_map, Forall_forall. reflexivity.
Qed.

(** On summaries that are textual [write_csv] does not raise, and writes
    the header and then the line of each summary in [written_order]. *)
Lemma write_csv_textual (components : odict) :
  Forall textual (map snd components) ->
  write_csv components
  = Ok (header ++ concat (map line_of (written_order (map snd components)))).
Proof.
  intros Ht. unfold write_csv.
  rewrite (keyed_textual _ Ht). cbn [bind].
  rewrite sorted_strings. cbn [bind]. rewrite snd_tagged.
  fold (written_order (map snd components)).
  rewrite write_rows_textual; [reflexivity|].
  eapply Permutation_Forall; [apply Permutation_sym, written_order_perm|].
  exact Ht.
Qed.

Lemma write_csv_Ok (components : odict) (document : str) :
  write_csv components = Ok document -> Forall textual (map snd components).
Proof.
  unfold write_csv.
  destruct (keyed (map snd components)) as [ks|] eqn:Ek; cbn [bind];
    [|discriminate].
  apply keyed_Ok in Ek.
  destruct (sorted ks) as [ordered|] eqn:Es; cbn [bind]; [|discriminate].
  apply sorted_Ok in Es.
  destruct (write_rows _) as [rows|] eqn:Er; cbn [bind]; [|discriminate].
  intros _. apply write_rows_Ok in Er. rewrite <- Ek.
  eapply Permutation_Forall; [apply Permutation_map, Es | exact Er].
Qed.

Lemma split_line (a rest : str) :
  ~ In newline a ->
  split newline (a ++ newline :: rest) = a :: split newline rest.
Proof.
  induction a as [|c a IH]; intros Hno.
  - reflexivity.
  - cbn [app split].
    destruct (chr_eqb c newline) eqn:E.
    + apply chr_eqb_eq in E. subst c. simpl in Hno. tauto.
    + rewrite IH by (simpl in Hno; tauto). reflexivity.
Qed.

Lemma split_nonempty (sep : ascii) (s : str) : split sep s <> [].
Proof.
  destruct s as [|c s]; simpl; [discriminate|].
  destruct (chr_eqb c sep); [discriminate|].
  destruct (split sep s); discriminate.
Qed.

Lemma lines_cons (a rest : str) :
  ~ In newline a -> lines (a ++ newline :: rest) = a :: lines rest.
Proof.
  intros Hno. unfold lines. rewrite (split_line _ _ Hno).
  pose proof (split_nonempty newline rest) as Hne.
  simpl. destruct (split newline rest); [contradiction | reflexivity].
Qed.

Lemma replace_keeps_newline_out (s : str) :
  ~ In newline s -> ~ In newline (replace "," ";" s).
Proof.
  unfold replace. intros Hno Hin. apply in_map_iff in Hin.
  destruct Hin as (c & E & Hc).
  destruct (chr_eqb c ","); [discriminate|]. subst c. contradiction.
Qed.

Lemma row_text_no_newline (x : summary) :
  Forall (fun f => ~ In newline f) (columns x) -> ~ In newline (row_text x).
Proof.
  unfold row_text, columns. intros H.
  inversion H as [|? ? H1 H']; subst. inversion H' as [|? ? H2 H'']; subst.
  inversion H'' as [|? ? H3 H''']; subst. inversion H''' as [|? ? H4 _]; subst.
  cbn [map join]. rewrite !in_app_iff.
  intros [Hin | [Hin | [Hin | [Hin | [Hin | [Hin | Hin]]]]]];
    try (revert Hin; apply replace_keeps_newline_out; assumption);
    simpl in Hin; destruct Hin as [Hin|[]]; discriminate.
Qed.

(** When no field holds a newline, the rows are the lines of the document:
    the header and the text of each row. *)
Lemma rows_are_lines (rows : list summary) :
  Forall (fun x => Forall (fun f => ~ In newline f) (columns x)) rows ->
  lines (header ++ concat (map line_of rows))
  = L "Component,Origin,License,Copyright" :: map row_text rows.
Proof.
  intros H. unfold header. rewrite <- app_assoc. cbn [app].
  rewrite lines_cons.
  2:{ vm_compute. intuition discriminate. }
  f_equal. induction H as [|x rows Hx _ IH]; [reflexivity|].
  cbn [map concat]. unfold line_of at 1. fold (row_text x).
  rewrite <- app_assoc. cbn [app].
  rewrite lines_cons by (apply row_text_no_newline, Hx).
  rewrite IH. reflexivity.
Qed.

(** Proves that every summary of a concrete list is textual. *)
Ltac textual_list :=
  repeat (constructor; [do 4 eexists; reflexivity|]); constructor.

(** ** Properties of [write_csv] *)

Lemma component_field_join (f : str) (rest : str) :
  ~ In ","%char f -> component_field (f ++ "," %char :: rest) = f.
Proof.
  unfold component_field. induction f as [|c f IH]; intros Hc.
  - simpl. reflexivity.
  - cbn [app split].
    destruct (chr_eqb c ",") eqn:E.
    + apply chr_eqb_eq in E. subst. simpl in Hc. tauto.
    + assert (Hf : ~ In ","%char f) by (simpl in Hc; tauto).
      specialize (IH Hf).
      destruct (split "," (f ++ "," %char :: rest)) as [|piece pieces].
      * simpl in IH. subst f. reflexivity.
      * simpl in IH. subst piece. reflexivity.
Qed.

(** The Component field of a body line is the name of its summary with
    commas turned into semicolons. *)
Lemma component_field_row (x : summary) :
  component_field (row_text x) = replace "," ";" (text_of (component x)).
Proof.
  unfold row_text, columns. cbn [map join].
  apply component_field_join, replace_no_comma.
Qed.

(** Rows in the order of their keys give body lines in the order of their
    Component fields, when no name holds a comma. *)
Lemma body_lines_sorted (rows : list summary) :
  StronglySorted by_key rows ->
  Forall (fun x => ~ In ","%char (text_of (component x))) rows ->
  StronglySorted
    (fun a b => str_le (lower (component_field a)) (lower (component_field b)))
    (map row_text rows).
Proof.
  induction 1 as [|x rows Hs IH Hx]; intros Hc; cbn [map].
  - constructor.
  - inversion Hc as [|? ? Hcx Hcr]; subst. constructor; [apply IH, Hcr|].
    apply Forall_map. rewrite Forall_forall in *. intros y Hy.
    rewrite !component_field_row.
    rewrite (replace_absent _ _ _ Hcx), (replace_absent _ _ _ (Hcr y Hy)).
    apply Hx, Hy.
Qed.

(** C7, as stated, fails: a field that holds a newline takes two lines of
    the document.  With such a license the two summaries of
    [multiline_components] give three body lines, and the Component field of
    the last, 'Apache-2.0', sorts before that of the line above it. *)
Lemma newline_in_field_splits_row :
  Forall textual (map snd multiline_components)
  /\ length multiline_components = 2
  /\ exists document,
       write_csv multiline_components = Ok document
       /\ lines document
          = [ L "Component,Origin,License,Copyright";
              L "anyhow,https://github.com/dtolnay/anyhow,MIT,The anyhow Authors";
              L "serde,https://github.com/serde-rs/serde,MIT";
              L "Apache-2.0,The serde Authors" ]
       /\ map component_field (tl (lines document))
          = [L "anyhow"; L "serde"; L "Apache-2.0"]
       /\ str_ltb (lower (L "Apache-2.0")) (lower (L "serde")) = true.
Proof.
  split; [simpl; textual_list|]. split; [reflexivity|].
  eexists. split; [vm_compute; reflexivity|].
  split; [|split]; vm_compute; reflexivity.
Qed.

(** C7, amended.  For every mapping of summaries whose fields are strings
    without a newline, the document that [write_csv] writes has the line
    'Component,Origin,License,Copyright' first and then exactly one line per
    summary, the row of that summary; the lines stand in non-decreasing order
    of the lower-cased component name of their summaries, which is the order
    of their lower-cased Component fields when no name holds a comma. *)
Theorem write_csv_header_then_sorted (components : odict) :
  Forall textual (map snd components) ->
  Forall (fun x => Forall (fun f => ~ In newline f) (columns x))
    (map snd components) ->
  exists rows document,
    write_csv components = Ok document
    /\ Permutation rows (map snd components)
    /\ lines document
       = L "Component,Origin,License,Copyright" :: map row_text rows
    /\ length (tl (lines document)) = length components
    /\ StronglySorted
         (fun x y => str_le (lower (text_of (component x)))
                            (lower (text_of (component y)))) rows
    /\ (Forall (fun x => ~ In ","%char (text_of (component x))) rows ->
        StronglySorted
          (fun a b => str_le (lower (component_field a))
                             (lower (component_field b)))
          (tl (lines document))).
Proof.
  intros Ht Hn.
  exists (written_order (map snd components)). eexists.
  split; [apply (write_csv_textual _ Ht)|].
  split; [apply written_order_perm|].
  assert (Hl : lines (header
                      ++ concat (map line_of
                                   (written_order (map snd components))))
               = L "Component,Origin,License,Copyright"
                 :: map row_text (written_order (map snd components))).
  { apply rows_are_lines.
    eapply Permutation_Forall; [apply Permutation_sym, written_order_perm|].
    exact Hn. }
  rewrite Hl. cbn [tl]. split; [reflexivity|]. split; [|split].
  - rewrite length_map, (Permutation_length (written_order_perm _)).
    apply length_map.
  - apply written_order_sorted.
  - apply body_lines_sorted, written_order_sorted.
Qed.

Lemma write_csv_header_then_sorted_witness :
  exists rows document,
    write_csv three_components = Ok document
    /\ Permutation rows (map snd three_components)
    /\ lines document
       = L "Component,Origin,License,Copyright" :: map row_text rows
    /\ length (tl (lines document)) = length three_components
    /\ StronglySorted
         (fun x y => str_le (lower (text_of (component x)))
                            (lower (text_of (component y)))) rows
    /\ (Forall (fun x => ~ In ","%char (text_of (component x))) rows ->
        StronglySorted
          (fun a b => str_le (lower (component_field a))
                             (lower (component_field b)))
          (tl (lines document))).
Proof.
  apply (write_csv_header_then_sorted three_components).
  - simpl. textual_list.
  - vm_compute. repeat constructor; intuition discriminate.
Defined.

(** C8.  For every summary written, each of the four fields of its body
    line is the source value with every comma turned into a semicolon, so no
    field holds a comma; the fields are then joined with commas. *)
Theorem written_fields_have_no_comma (components : odict) :
  Forall textual (map snd components) ->
  exists rows : list (summary * list str),
    write_csv components
    = Ok (header
          ++ concat (map (fun r => join (L ",") (snd r) ++ [newline]) rows))
    /\ Permutation (map fst rows) (map snd components)
    /\ Forall (fun r =>
                 Forall2 semicolons (columns (fst r)) (snd r)
                 /\ Forall (fun f => ~ In ","%char f) (snd r)) rows.
Proof.
  intros Ht.
  exists (map (fun x => (x, map (replace "," ";") (columns x)))
            (written_order (map snd components))).
  split; [|split].
  - rewrite (write_csv_textual _ Ht), map_map. reflexivity.
  - rewrite map_map. simpl. rewrite map_id. apply written_order_perm.
  - apply Forall_map, Forall_forall. intros x _. simpl. split.
    + unfold columns. repeat constructor; apply replace_semicolons.
    + unfold columns. repeat constructor; apply replace_no_comma.
Qed.

Lemma written_fields_have_no_comma_witness :
  exists rows : list (summary * list str),
    write_csv three_components
    = Ok (header
          ++ concat (map (fun r => join (L ",") (snd r) ++ [newline]) rows))
    /\ Permutation (map fst rows) (map snd three_components)
    /\ Forall (fun r =>
                 Forall2 semicolons (columns (fst r)) (snd r)
                 /\ Forall (fun f => ~ In ","%char f) (snd r)) rows.
Proof.
  apply (written_fields_have_no_comma three_components).
  simpl. textual_list.
Defined.

(** ** Component names in the output *)

Lemma distinct_keys_names (components : odict) :
  distinct_keys components ->
  Forall (fun item => component (snd item) = fst item) components ->
  Forall textual (map snd components) ->
  NoDup (map (fun x => text_of (component x)) (map snd components)).
Proof.
  induction components as [|item rest IH]; simpl; intros Hd Hk Ht.
  - constructor.
  - destruct Hd as [Hitem Hrest].
    inversion Hk as [|? ? Hk1 Hk2]; inversion Ht as [|? ? Ht1 Ht2]; subst.
    constructor; [|apply IH; assumption].
    intros Hin. rewrite map_map in Hin. apply in_map_iff in Hin.
    destruct Hin as (later & Heq & Hin).
    rewrite Forall_forall in Hitem, Hk2, Ht2.
    specialize (Hitem later Hin). specialize (Hk2 later Hin).
    assert (Htl : textual (snd later)) by (apply Ht2, in_map, Hin).
    destruct Ht1 as (c & o & l & h & E1). destruct Htl as (c' & o' & l' & h' & E2).
    rewrite E1 in Hk1, Heq. rewrite E2 in Hk2, Heq. simpl in *.
    rewrite <- Hk1, <- Hk2 in Hitem. simpl in Hitem.
    subst c'. rewrite str_eqb_refl in Hitem. discriminate.
Qed.

Lemma parse_Ok_keys (data : value) (components : odict) :
  parse_yml_to_csv data = Ok components ->
  distinct_keys components
  /\ Forall (fun item => component (snd item) = fst item) components.
Proof.
  rewrite parse_entries.
  destruct (entries data) as [libs|]; cbn [bind]; [|discriminate].
  intros H. destruct (visit_all_Ok _ _ _ H) as (added & -> & Hadded & Hd).
  split; [apply Hd; exact I|].
  simpl. eapply Forall_impl; [|exact Hadded].
  intros item (lib & _ & _ & E & _). exact E.
Qed.

(** *** The copyright holder has no newline of its own *)

Lemma fallback_no_newline (name : str) :
  ~ In newline name -> ~ In newline (fallback name).
Proof.
  intros Hn. unfold fallback.
  destruct (str_in (L "datadog") (lower name)).
  - vm_compute. intuition discriminate.
  - destruct (str_in (L "rust") (lower name) || existsb _ _).
    + vm_compute. intuition discriminate.
    + rewrite !in_app_iff. intros [H | [H | H]].
      * vm_compute in H. intuition discriminate.
      * contradiction.
      * vm_compute in H. intuition discriminate.
Qed.

(** The holder that [extract_copyright] returns holds a newline only if the
    name does: a surviving candidate has none, and the name-based text has
    those of the name. *)
Lemma extract_copyright_no_newline (license_texts : list value)
    (package_name : value) (holder : str) :
  extract_copyright license_texts package_name = Ok holder ->
  ~ In newline (text_of package_name) ->
  ~ In newline holder.
Proof.
  intros E Hn.
  assert (Hok : Forall text_ok license_texts).
  { unfold extract_copyright in E.
    destruct (scan None license_texts) as [best|] eqn:Es; [|discriminate].
    eapply scan_Ok_text_ok, Es. }
  destruct (extract_copyright_text_ok _ package_name Hok)
    as [(r & Hr & E') | [_ E']]; rewrite E' in E.
  - injection E as <-.
    destruct (survivor_shape _ _ (first_shortest_In _ _ Hr))
      as (c & t & _ & _ & _ & _ & _ & _ & Hnl & _).
    exact Hnl.
  - destruct package_name; try discriminate. cbn in E. injection E as <-.
    apply fallback_no_newline. exact Hn.
Qed.

Lemma texts_of_Ok (licenses texts : list value) :
  texts_of licenses = Ok texts -> texts = map text_or_empty licenses.
Proof.
  revert texts. induction licenses as [|lic rest IH]; intros texts;
    cbn [texts_of map].
  - intros H. injection H as <-. reflexivity.
  - destruct lic; try discriminate.
    rewrite get_field. cbn [bind text_or_empty].
    destruct (texts_of rest) as [ts|]; cbn [bind]; [|discriminate].
    intros H. injection H as <-. rewrite (IH ts eq_refl). reflexivity.
Qed.

(** The summary of an entry, field by field: the name, the repository and
    the license as the entry gives them, the empty string for those it does
    not give, and the holder that [extract_copyright] returns for the texts
    of its license objects and its name. *)
Lemma summarise_fields (lib : value) (s : summary) :
  summarise lib = Ok s ->
  exists d licenses holder,
    lib = VDict d
    /\ iterate (field d (L "licenses") (VList [])) = Ok licenses
    /\ extract_copyright (map text_or_empty licenses)
         (field d (L "package_name") (VStr [])) = Ok holder
    /\ nonempty holder = true
    /\ s = Summary (field d (L "package_name") (VStr []))
             (field d (L "repository") (VStr []))
             (field d (L "license") (VStr []))
             (VStr holder).
Proof.
  unfold summarise. destruct lib; try discriminate.
  rewrite !get_field. cbn [bind].
  destruct (iterate _) as [lics|] eqn:Ei; cbn [bind]; [|discriminate].
  destruct (texts_of lics) as [texts|] eqn:Et; cbn [bind]; [|discriminate].
  apply texts_of_Ok in Et. subst texts.
  destruct (extract_copyright _ _) as [holder|] eqn:E; cbn [bind];
    [|discriminate].
  intros H. injection H as <-. exists d, lics, holder.
  split; [reflexivity|]. split; [exact Ei|]. split; [exact E|].
  split; [|reflexivity].
  apply (extract_copyright_nonempty _ _ _ E).
Qed.

Lemma parse_Ok_copyright (data : value) (components : odict) :
  parse_yml_to_csv data = Ok components ->
  Forall (fun x => ~ In newline (text_of (component x)) ->
                   ~ In newline (text_of (copyright x)))
    (map snd components).
Proof.
  rewrite parse_entries.
  destruct (entries data) as [libs|]; cbn [bind]; [|discriminate].
  intros H. destruct (visit_all_Ok _ _ _ H) as (added & -> & Hadded & _).
  simpl. apply Forall_map. eapply Forall_impl; [|exact Hadded].
  intros item (lib & _ & _ & _ & Hs).
  destruct (summarise_fields _ _ Hs) as (d & lics & holder & _ & _ & E & _ & ->).
  cbn [component copyright text_of].
  apply (extract_copyright_no_newline _ _ _ E).
Qed.

(** C6, as stated, fails.  The names 'a,b' and 'a;b' are two keys, and both
    body lines have 'a;b' in the Component field.  The names 'b' and 'a',
    newline, 'b' are two keys free of commas, and the body lines, four of
    them, have 'b' twice in the Component field. *)
Lemma component_field_twice :
  (main (Some comma_manifest)
   = Ok (0, Some (L "Component,Origin,License,Copyright" ++ [newline]
                  ++ L "a;b,,,The a;b Authors" ++ [newline]
                  ++ L "a;b,,,The a;b Authors" ++ [newline]))
   /\ map component_field
        (tl (lines (L "Component,Origin,License,Copyright" ++ [newline]
                    ++ L "a;b,,,The a;b Authors" ++ [newline]
                    ++ L "a;b,,,The a;b Authors" ++ [newline])))
      = [L "a;b"; L "a;b"])
  /\ exists document,
       main (Some multiline_name_manifest) = Ok (0, Some document)
       /\ map component_field (tl (lines document))
          = [L "a"; L "b"; L "b Authors"; L "b"].
Proof.
  split; [split; vm_compute; reflexivity|].
  eexists. split; vm_compute; reflexivity.
Qed.

(** C6, amended.  For every manifest that loads and is written, the
    summaries that [write_csv] writes have pairwise different component
    names, one row each.  When no name, origin or license of a summary holds
    a newline, the body lines of the document are these rows, one line per
    summary; and when, besides, no name holds a comma, no two body lines
    have the same value in the Component field. *)
Theorem component_names_distinct (data : value) (components : odict)
    (document : str) :
  parse_yml_to_csv data = Ok components ->
  write_csv components = Ok document ->
  exists rows,
    Permutation rows (map snd components)
    /\ document = header ++ concat (map line_of rows)
    /\ NoDup (map (fun x => text_of (component x)) rows)
    /\ (Forall (fun x => ~ In newline (text_of (component x))
                         /\ ~ In newline (text_of (origin x))
                         /\ ~ In newline (text_of (license x))) rows ->
        tl (lines document) = map row_text rows
        /\ (Forall (fun x => ~ In ","%char (text_of (component x))) rows ->
            NoDup (map component_field (tl (lines document))))).
Proof.
  intros Hparse Hwrite.
  pose proof (write_csv_Ok _ _ Hwrite) as Ht.
  rewrite (write_csv_textual _ Ht) in Hwrite.
  apply Ok_inj in Hwrite. subst document.
  destruct (parse_Ok_keys _ _ Hparse) as [Hd Hk].
  pose proof (parse_Ok_copyright _ _ Hparse) as Hcopy.
  set (rows := written_order (map snd components)) in *.
  assert (Hperm : Permutation rows (map snd components))
    by apply written_order_perm.
  assert (Hnames : NoDup (map (fun x => text_of (component x)) rows)).
  { eapply Permutation_NoDup.
    - apply Permutation_map, Permutation_sym, Hperm.
    - apply distinct_keys_names; assumption. }
  exists rows.
  split; [exact Hperm|]. split; [reflexivity|]. split; [exact Hnames|].
  intros Hnl.
  assert (Hl : lines (header ++ concat (map line_of rows))
               = L "Component,Origin,License,Copyright" :: map row_text rows).
  { apply rows_are_lines.
    apply (Permutation_Forall (Permutation_sym Hperm)) in Hcopy.
    rewrite Forall_forall in *. intros x Hx.
    destruct (Hnl x Hx) as (H1 & H2 & H3).
    unfold columns. repeat constructor; auto. }
  rewrite Hl. cbn [tl]. split; [reflexivity|].
  intros Hc. rewrite map_map.
  erewrite map_ext_in; [exact Hnames|].
  intros x Hin. cbn beta. rewrite component_field_row.
  apply replace_absent. rewrite Forall_forall in Hc. apply Hc, Hin.
Qed.

Lemma component_names_distinct_witness :
  exists rows,
    Permutation rows (map snd serde_components)
    /\ header
         ++ L "anyhow,https://github.com/dtolnay/anyhow,MIT,The anyhow Authors"
         ++ [newline]
         ++ L "serde,https://github.com/serde-rs/serde,MIT,The Rust Project Developers"
         ++ [newline]
       = header ++ concat (map line_of rows)
    /\ NoDup (map (fun x => text_of (component x)) rows)
    /\ (Forall (fun x => ~ In newline (text_of (component x))
                         /\ ~ In newline (text_of (origin x))
                         /\ ~ In newline (text_of (license x))) rows ->
        tl (lines
              (header
               ++ L "anyhow,https://github.com/dtolnay/anyhow,MIT,The anyhow Authors"
               ++ [newline]
               ++ L "serde,https://github.com/serde-rs/serde,MIT,The Rust Project Developers"
               ++ [newline]))
        = map row_text rows
        /\ (Forall (fun x => ~ In ","%char (text_of (component x))) rows ->
            NoDup
              (map component_field
                 (tl (lines
                        (header
                         ++ L "anyhow,https://github.com/dtolnay/anyhow,MIT,The anyhow Authors"
                         ++ [newline]
                         ++ L "serde,https://github.com/serde-rs/serde,MIT,The Rust Project Developers"
                         ++ [newline])))))).
Proof.
  apply (component_names_distinct serde_manifest serde_components).
  - vm_compute. reflexivity.
  - vm_compute. reflexivity.
Defined.

(** ** Missing and malformed fields *)

Lemma texts_of_ok (l : list value) :
  Forall license_ok l ->
  texts_of l = Ok (map text_or_empty l)
  /\ Forall text_ok (map text_or_empty l).
Proof.
  induction 1 as [|lic l (d & -> & Hd) _ [IH1 IH2]].
  - split; [reflexivity | constructor].
  - cbn [texts_of map text_or_empty]. rewrite get_field, IH1. cbn [bind].
    split; [reflexivity|]. constructor; [|exact IH2].
    unfold present_ok, field in *.
    destruct (dict_find (L "text") d) as [v|].
    + exact Hd.
    + left. exists []. reflexivity.
Qed.

Lemma entry_ok_name (d : list (value * value)) :
  present_ok is_text d (L "package_name") ->
  exists n, field d (L "package_name") (VStr []) = VStr n.
Proof.
  unfold present_ok, field.
  destruct (dict_find (L "package_name") d) as [v|].
  - intros (n & ->). eauto.
  - intros _. eauto.
Qed.

Lemma entry_ok_licenses (d : list (value * value)) :
  present_ok licenses_ok d (L "licenses") ->
  exists l,
    iterate (field d (L "licenses") (VList [])) = Ok l
    /\ Forall license_ok l.
Proof.
  unfold present_ok, field.
  destruct (dict_find (L "licenses") d) as [v|].
  - intros (l & E & Hl). eauto.
  - intros _. exists []. split; [reflexivity | constructor].
Qed.

(** The summary of a sound entry: it is computed without an exception, from
    the fields that are there and the empty string for those that are not. *)
Lemma summarise_entry_ok (d : list (value * value)) :
  entry_ok (VDict d) ->
  exists holder,
    extract_copyright
      (map text_or_empty (items_of (field d (L "licenses") (VList []))))
      (field d (L "package_name") (VStr [])) = Ok holder
    /\ summarise (VDict d)
       = Ok (Summary (field d (L "package_name") (VStr []))
               (field d (L "repository") (VStr []))
               (field d (L "license") (VStr []))
               (VStr holder)).
Proof.
  intros (d' & E & Hn & Hl). injection E as <-.
  destruct (entry_ok_name _ Hn) as (n & En).
  destruct (entry_ok_licenses _ Hl) as (l & El & Hlics).
  destruct (texts_of_ok _ Hlics) as (Ht & Hok).
  unfold summarise, items_of. rewrite !get_field. cbn [bind].
  rewrite El, En. cbn [bind]. rewrite Ht. cbn [bind].
  destruct (extract_copyright_text_ok _ (VStr n) Hok)
    as [(holder & _ & E) | [_ E]];
    rewrite E; eexists; split; reflexivity.
Qed.

Lemma visit_entry_ok (components : odict) (lib : value) :
  entry_ok lib -> exists out, visit components lib = Ok out.
Proof.
  intros Hok. pose proof Hok as (d & -> & Hn & _).
  destruct (summarise_entry_ok _ Hok) as (holder & _ & Hs).
  destruct (entry_ok_name _ Hn) as (n & En).
  rewrite visit_step. unfold name_of. rewrite get_field, En, Hs.
  cbn [bind contains hashable].
  destruct (existsb _ components); cbn [bind]; eauto.
Qed.

Lemma visit_all_entry_ok (libs : list value) (components : odict) :
  Forall entry_ok libs -> exists out, visit_all components libs = Ok out.
Proof.
  intros H. revert components.
  induction H as [|lib libs Hlib _ IH]; intros components.
  - exists components. reflexivity.
  - cbn [visit_all].
    destruct (visit_entry_ok components _ Hlib) as (mid & ->). cbn [bind].
    apply IH.
Qed.

(** C9, as stated, fails: a field of the wrong type in one entry makes the
    load of the whole manifest raise, be the entry alone or after a sound
    one.  An integer for the name of an entry without a license text raises
    AttributeError, and null for a license list raises TypeError. *)
Lemma malformed_field_fails_load :
  parse_yml_to_csv integer_name_manifest = Raise AttributeError
  /\ parse_yml_to_csv null_licenses_manifest = Raise TypeError
  /\ main (Some null_licenses_manifest) = Raise TypeError.
Proof.
  repeat split; vm_compute; reflexivity.
Qed.

(** C9, amended.  For every manifest whose entries are mappings in which
    the name, when given, is a string, the license list, when given, is a
    sequence of mappings, and the text of a license object, when given, is a
    string or a false value such as null, the load returns; and every
    summary it holds is that of an entry read with the empty string for each
    of package_name, repository, license and a license object's text that is
    missing. *)
Theorem missing_fields_default (data : value) (libs : list value) :
  entries data = Ok libs ->
  Forall entry_ok libs ->
  exists components,
    parse_yml_to_csv data = Ok components
    /\ Forall
         (fun item =>
            exists d holder,
              In (VDict d) libs
              /\ extract_copyright
                   (map text_or_empty
                      (items_of (field d (L "licenses") (VList []))))
                   (field d (L "package_name") (VStr [])) = Ok holder
              /\ snd item
                 = Summary (field d (L "package_name") (VStr []))
                     (field d (L "repository") (VStr []))
                     (field d (L "license") (VStr []))
                     (VStr holder))
         components.
Proof.
  intros Hentries Hok.
  rewrite parse_entries, Hentries. cbn [bind].
  destruct (visit_all_entry_ok libs [] Hok) as (components & Hrun).
  exists components. split; [exact Hrun|].
  destruct (visit_all_Ok _ _ _ Hrun) as (added & -> & Hadded & _).
  simpl. eapply Forall_impl; [|exact Hadded].
  intros item (lib & Hin & _ & _ & Hs).
  rewrite Forall_forall in Hok. pose proof (Hok lib Hin) as Hlib.
  pose proof Hlib as (d & -> & _).
  destruct (summarise_entry_ok _ Hlib) as (holder & He & Hs').
  exists d, holder. split; [exact Hin|]. split; [exact He|].
  rewrite Hs in Hs'. injection Hs' as ->. reflexivity.
Qed.

Lemma missing_fields_default_witness :
  exists components,
    parse_yml_to_csv sparse_manifest = Ok components
    /\ Forall
         (fun item =>
            exists d holder,
              In (VDict d) sparse_entries
              /\ extract_copyright
                   (map text_or_empty
                      (items_of (field d (L "licenses") (VList []))))
                   (field d (L "package_name") (VStr [])) = Ok holder
              /\ snd item
                 = Summary (field d (L "package_name") (VStr []))
                     (field d (L "repository") (VStr []))
                     (field d (L "license") (VStr []))
                     (VStr holder))
         components.
Proof.
  apply (missing_fields_default sparse_manifest).
  - reflexivity.
  - unfold sparse_entries.
    constructor; [|constructor; [|constructor; [|constructor]]].
    + exists []. repeat split.
    + eexists. split; [reflexivity|]. split.
      * exists (L "serde"). reflexivity.
      * exists [VDict []]. split; [reflexivity|].
        constructor; [|constructor].
        exists []. split; [reflexivity | exact I].
    + eexists. split; [reflexivity|]. split.
      * exists (L "anyhow"). reflexivity.
      * eexists. split; [reflexivity|].
        constructor; [|constructor; [|constructor]].
        -- eexists. split; [reflexivity|]. right. reflexivity.
        -- eexists. split; [reflexivity|]. left. eexists. reflexivity.
Defined.

(** ** The empty manifest *)

Lemma line_of_nonempty (x : summary) : line_of x <> [].
Proof.
  unfold line_of. destruct (row_text x); discriminate.
Qed.

(** The loop stores the first entry it visits, or raises. *)
Lemma visit_all_stores (lib : value) (libs : list value) (out : odict) :
  visit_all [] (lib :: libs) = Ok out -> out <> [].
Proof.
  cbn [visit_all].
  destruct (visit [] lib) as [mid|] eqn:Ev; cbn [bind]; [|discriminate].
  intros Hrest.
  destruct (visit_all_Ok _ _ _ Hrest) as (added & -> & _).
  destruct (visit_Ok _ _ _ Ev)
    as (name & _ & [[Hc _] | (_ & s & _ & _ & ->)]).
  - unfold contains in Hc. destruct (hashable name); discriminate.
  - discriminate.
Qed.

(** C10, as stated, fails: with null under third_party_libraries the loop
    of line 85 raises TypeError, and with the null of an empty document the
    call of [get] raises AttributeError. *)
Lemma null_entries_fail :
  entries null_entries_manifest = Raise TypeError
  /\ main (Some null_entries_manifest) = Raise TypeError
  /\ main (Some empty_document) = Raise AttributeError.
Proof.
  repeat split; vm_compute; reflexivity.
Qed.

(** C10, amended.  [main] ends with exit code 0 and a document that is the
    one line 'Component,Origin,License,Copyright' exactly when the manifest
    is a mapping in which third_party_libraries is absent or has a value
    with no element to iterate over, such as an empty sequence. *)
Theorem no_entries_header_only (data : value) :
  ((exists d,
       data = VDict d
       /\ (dict_find (L "third_party_libraries") d = None
           \/ exists v, dict_find (L "third_party_libraries") d = Some v
                        /\ iterate v = Ok []))
   <-> main (Some data)
       = Ok (0, Some (L "Component,Origin,License,Copyright" ++ [newline])))
  /\ lines (L "Component,Origin,License,Copyright" ++ [newline])
     = [L "Component,Origin,License,Copyright"].
Proof.
  split; [|reflexivity]. split.
  - intros (d & -> & H).
    unfold main, parse_yml_to_csv, get.
    destruct H as [-> | (v & -> & Hv)]; cbn [bind].
    + reflexivity.
    + rewrite Hv. reflexivity.
  - unfold main. rewrite parse_entries. unfold entries.
    destruct data; try discriminate. rewrite get_field. cbn [bind].
    destruct (iterate _) as [libs|] eqn:Ei; cbn [bind]; [|discriminate].
    destruct (visit_all [] libs) as [components|] eqn:Ev; cbn [bind];
      [|discriminate].
    destruct (write_csv components) as [document|] eqn:Ew; cbn [bind];
      [|discriminate].
    intros H.
    assert (Ed : document = header) by (injection H as H'; exact H').
    subst document.
    pose proof (write_csv_Ok _ _ Ew) as Ht.
    rewrite (write_csv_textual _ Ht) in Ew. apply Ok_inj in Ew.
    rewrite <- (app_nil_r header) in Ew at 2.
    apply app_inv_head in Ew.
    assert (Hnil : components = []).
    { pose proof (written_order_perm (map snd components)) as Hp.
      destruct (written_order (map snd components)) as [|x rest].
      - apply Permutation_nil in Hp. destruct components; [reflexivity|].
        discriminate Hp.
      - cbn [map concat] in Ew. apply app_eq_nil in Ew.
        destruct Ew as [Ew _]. destruct (line_of_nonempty _ Ew). }
    subst components.
    destruct libs as [|lib libs].
    + exists d. split; [reflexivity|]. unfold field in Ei.
      destruct (dict_find (L "third_party_libraries") d) as [v|].
      * right. exists v. split; [reflexivity | exact Ei].
      * left. reflexivity.
    + destruct (visit_all_stores _ _ _ Ev). reflexivity.
Qed.

Lemma no_entries_header_only_witness :
  main (Some (VDict []))
  = Ok (0, Some (L "Component,Origin,License,Copyright" ++ [newline]))
  /\ main (Some (manifest []))
     = Ok (0, Some (L "Component,Origin,License,Copyright" ++ [newline])).
Proof.
  split.
  - apply (proj1 (no_entries_header_only (VDict []))).
    exists []. split; [reflexivity|]. left. reflexivity.
  - apply (proj1 (no_entries_header_only (manifest []))).
    eexists. split; [reflexivity|].
    right. exists (VList []). split; reflexivity.
Defined.

(** * Further properties of the script *)

(** X1.  Every text that group 1 holds in a match of the pattern of line
    22 starts with a capital letter A-Z, goes on with 3 to 80 characters
    none of which is a newline, and stands in the license text after the
    word 'Copyright' and at least one white-space character. *)
Theorem matched_group_shape (text g : str) :
  In g (finditer valid_holder_pattern text) ->
  holder_shaped g
  /\ exists before mid after,
       text = before ++ L "Copyright" ++ mid ++ g ++ after
       /\ (exists sp m, mid = sp :: m /\ isspace sp = true).
Proof. apply finditer_shape. Qed.

Lemma matched_group_shape_witness :
  holder_shaped (L "Example Widgets Ltd.")
  /\ exists before mid after,
       two_statements = before ++ L "Copyright" ++ mid
                        ++ L "Example Widgets Ltd." ++ after
       /\ (exists sp m, mid = sp :: m /\ isspace sp = true).
Proof.
  apply (matched_group_shape two_statements). vm_compute. left. reflexivity.
Defined.

(** X2.  The clean-up of lines 40-44 leaves a candidate in which every
    white-space character is a single space between other characters or at
    the end, which does not start with white space, does not end with '.',
    ',', ';' or ':', and is no longer than the matched text. *)
Theorem clean_candidate_tidy (g : str) :
  single_spaced (clean g)
  /\ (forall c t, clean g = c :: t -> isspace c = false)
  /\ (forall a z, clean g = a ++ [z] -> ~ In z punctuation)
  /\ length (clean g) <= length g.
Proof. apply clean_tidy. Qed.

(** X3.  When a candidate survives, the holder that [extract_copyright]
    returns starts with a capital letter A-Z, has 5 to 80 characters of which
    at least 3 are letters, holds no template indicator, no newline and no
    white space but single spaces, and does not end with '.', ',', ';' or
    ':'. *)
Theorem extracted_holder_shape (texts : list str) (name : str) :
  survivors texts <> [] ->
  exists c t,
    extract_copyright (map VStr texts) (VStr name) = Ok (c :: t)
    /\ upper_A_Z c = true
    /\ 5 <= length (c :: t) <= 80
    /\ 3 <= alphas (c :: t)
    /\ boilerplate (c :: t) = false
    /\ single_spaced (c :: t)
    /\ ~ In newline (c :: t)
    /\ (forall a z, c :: t = a ++ [z] -> ~ In z punctuation).
Proof.
  intros Hne.
  destruct (extract_copyright_strings texts name) as [(r & Hr & E) | [Hnil _]];
    [|contradiction].
  destruct (survivor_shape _ _ (first_shortest_In _ _ Hr))
    as (c & t & -> & H).
  exists c, t. split; [exact E | exact H].
Qed.

Lemma extracted_holder_shape_witness :
  exists c t,
    extract_copyright (map VStr [two_statements]) (VStr (L "pkg"))
    = Ok (c :: t)
    /\ upper_A_Z c = true
    /\ 5 <= length (c :: t) <= 80
    /\ 3 <= alphas (c :: t)
    /\ boilerplate (c :: t) = false
    /\ single_spaced (c :: t)
    /\ ~ In newline (c :: t)
    /\ (forall a z, c :: t = a ++ [z] -> ~ In z punctuation).
Proof.
  apply (extracted_holder_shape [two_statements]). vm_compute. discriminate.
Defined.

(** ** Texts and names of other types *)

Lemma scan_filter (license_texts : list value) (best_match : option str) :
  scan best_match license_texts
  = scan best_match (filter truthy license_texts).
Proof.
  revert best_match.
  induction license_texts as [|t texts IH]; intros b; [reflexivity|].
  cbn [scan filter]. destruct (truthy t) eqn:Ht; cbn [negb].
  - cbn [scan]. rewrite Ht. cbn [negb]. destruct t; try reflexivity. apply IH.
  - apply IH.
Qed.

Lemma scan_unreadable (license_texts : list value) (best_match : option str) :
  Exists unreadable license_texts ->
  scan best_match license_texts = Raise TypeError.
Proof.
  intros H. revert best_match.
  induction H as [t texts [Ht Hn] | t texts _ IH]; intros b; cbn [scan].
  - rewrite Ht. cbn [negb].
    destruct t; try reflexivity. exfalso. apply Hn. exists s. reflexivity.
  - destruct (negb (truthy t)); [apply IH|].
    destruct t; try reflexivity. apply IH.
Qed.

(** A text is refused by [re.finditer], or is read or skipped. *)
Lemma unreadable_or_ok (t : value) : unreadable t \/ text_ok t.
Proof.
  unfold unreadable, text_ok. destruct (truthy t); [|auto].
  destruct t;
    try (left; split; [reflexivity | intros (s' & Hs); discriminate Hs]).
  right. left. eexists. reflexivity.
Qed.

Lemma texts_unreadable_or_ok (license_texts : list value) :
  Exists unreadable license_texts \/ Forall text_ok license_texts.
Proof.
  induction license_texts as [|t texts [IH | IH]].
  - right. constructor.
  - left. apply Exists_cons_tl, IH.
  - destruct (unreadable_or_ok t) as [Ht | Ht].
    + left. apply Exists_cons_hd, Ht.
    + right. constructor; assumption.
Qed.

(** X4.  [extract_copyright] raises TypeError in two cases and no other: one
    of the license texts is true and is not a string, which [re.finditer]
    refuses; or no candidate survives in the texts and the name is bytes, in
    whose lower-case form line 68 looks for a string. *)
Theorem type_error_iff_unreadable (license_texts : list value)
    (package_name : value) :
  extract_copyright license_texts package_name = Raise TypeError
  <-> Exists unreadable license_texts
      \/ (survivors (strings_of license_texts) = [] /\ is_bytes package_name).
Proof.
  split.
  - intros E.
    destruct (texts_unreadable_or_ok license_texts) as [Hex | Hok];
      [left; exact Hex|].
    right.
    destruct (extract_copyright_text_ok _ package_name Hok)
      as [(r & _ & E') | [Hnil E']]; rewrite E' in E; [discriminate|].
    split; [exact Hnil|].
    destruct package_name; cbn in E; try discriminate E.
    eexists. reflexivity.
  - intros [Hex | [Hnil (b & ->)]].
    + unfold extract_copyright. rewrite (scan_unreadable _ None Hex).
      reflexivity.
    + destruct (texts_unreadable_or_ok license_texts) as [Hex | Hok].
      * unfold extract_copyright. rewrite (scan_unreadable _ None Hex).
        reflexivity.
      * destruct (extract_copyright_text_ok _ (VBytes b) Hok)
          as [(r & Hr & _) | [_ E']].
        -- rewrite Hnil in Hr. apply first_shortest_In in Hr. destruct Hr.
        -- rewrite E'. reflexivity.
Qed.

Lemma type_error_iff_unreadable_witness :
  extract_copyright [VNone; VInt 7; text "Copyright 2020 Jane Doe"]
    (text "pkg") = Raise TypeError
  /\ extract_copyright [VNone; text "no statement here"]
       (VBytes (bytes_of "pkg")) = Raise TypeError.
Proof.
  split.
  - apply (proj2 (type_error_iff_unreadable _ _)). left.
    apply Exists_cons_tl, Exists_cons_hd. split; [reflexivity|].
    intros (s & Hs). discriminate Hs.
  - apply (proj2 (type_error_iff_unreadable _ _)). right.
    split; [vm_compute; reflexivity|]. eexists. reflexivity.
Defined.

(** X5.  A license text that is false (null, the empty string, zero, an
    empty sequence or mapping) is skipped: leaving such texts out does not
    change what [extract_copyright] returns or raises. *)
Theorem false_texts_skipped (license_texts : list value)
    (package_name : value) :
  extract_copyright license_texts package_name
  = extract_copyright (filter truthy license_texts) package_name.
Proof.
  unfold extract_copyright. rewrite scan_filter. reflexivity.
Qed.

(** X6.  The package name is consulted only when no candidate survives: with
    a name that is not a string [extract_copyright] still returns the first
    shortest surviving candidate when there is one; when there is none it
    raises TypeError for a name that is bytes and AttributeError for a name
    of any other type. *)
Theorem name_consulted_last (texts : list str) (name : value) :
  ~ is_text name ->
  (exists holder,
      first_shortest holder (survivors texts)
      /\ extract_copyright (map VStr texts) name = Ok holder)
  \/ (survivors texts = []
      /\ ((is_bytes name
           /\ extract_copyright (map VStr texts) name = Raise TypeError)
          \/ (~ is_bytes name
              /\ extract_copyright (map VStr texts) name
                 = Raise AttributeError))).
Proof.
  intros Hn. unfold extract_copyright. rewrite scan_strings. cbn [bind].
  pose proof (fold_pick_first_shortest _ (survivors_long texts)) as H.
  destruct (fold_left pick (survivors texts) None) as [r|].
  - left. exists r. split; [exact H|].
    assert (Hr : 5 <= length r).
    { pose proof (survivors_long texts) as Hl.
      rewrite Forall_forall in Hl. apply Hl, first_shortest_In, H. }
    destruct r; [simpl in Hr; lia | reflexivity].
  - right. split; [exact H|]. cbn.
    destruct name;
      try (right; split; [intros (b' & Hb); discriminate Hb | reflexivity]).
    + exfalso. apply Hn. exists s. reflexivity.
    + left. split; [eexists; reflexivity | reflexivity].
Qed.

Lemma name_consulted_last_witness :
  (exists holder,
      first_shortest holder (survivors [two_statements])
      /\ extract_copyright (map VStr [two_statements]) (VInt 42) = Ok holder)
  /\ extract_copyright (map VStr [L "no statement"]) (VBytes (bytes_of "pkg"))
     = Raise TypeError
  /\ extract_copyright (map VStr [L "no statement"]) VNone
     = Raise AttributeError.
Proof.
  split; [|split].
  - destruct (name_consulted_last [two_statements] (VInt 42))
      as [H | [H _]].
    + intros (s & Hs). discriminate Hs.
    + exact H.
    + vm_compute in H. discriminate H.
  - destruct (name_consulted_last [L "no statement"] (VBytes (bytes_of "pkg")))
      as [(r & Hr & _) | [_ [[_ H] | [Hb _]]]].
    + intros (s & Hs). discriminate Hs.
    + vm_compute in Hr. destruct Hr as (b & a & E & _).
      destruct b; discriminate E.
    + exact H.
    + exfalso. apply Hb. eexists. reflexivity.
  - destruct (name_consulted_last [L "no statement"] VNone)
      as [(r & Hr & _) | [_ [[(b & Hb) _] | [_ H]]]].
    + intros (s & Hs). discriminate Hs.
    + vm_compute in Hr. destruct Hr as (b & a & E & _).
      destruct b; discriminate E.
    + discriminate Hb.
    + exact H.
Defined.

(** ** The order of the texts *)

Lemma first_shortest_least (r : str) (l : list str) (c : str) :
  first_shortest r l -> In c l -> length r <= length c.
Proof.
  intros (before & after & -> & Hb & Ha) Hin.
  rewrite Forall_forall in Hb, Ha.
  apply in_app_or in Hin. destruct Hin as [Hin | [<- | Hin]].
  - apply Nat.lt_le_incl, Hb, Hin.
  - apply Nat.le_refl.
  - apply Ha, Hin.
Qed.

(** X7.  The order of the license texts decides only between candidates of
    the same least length: on a permutation of the texts [extract_copyright]
    returns a holder of the same length, and the same holder when no other
    surviving candidate is as short. *)
Theorem text_order_breaks_ties_only (texts texts' : list str) (name : str) :
  Permutation texts texts' ->
  exists holder holder',
    extract_copyright (map VStr texts) (VStr name) = Ok holder
    /\ extract_copyright (map VStr texts') (VStr name) = Ok holder'
    /\ length holder' = length holder
    /\ ((forall c, In c (survivors texts) ->
                   length c = length holder -> c = holder) ->
        holder' = holder).
Proof.
  intros Hp.
  assert (Hs : Permutation (survivors texts) (survivors texts')).
  { unfold survivors. apply Permutation_flat_map, Hp. }
  destruct (extract_copyright_strings texts name) as [(r & Hr & E) | [Hnil E]];
    destruct (extract_copyright_strings texts' name)
      as [(r' & Hr' & E') | [Hnil' E']].
  - exists r, r'. split; [exact E|]. split; [exact E'|].
    assert (Hin : In r (survivors texts')).
    { eapply Permutation_in; [exact Hs | apply first_shortest_In, Hr]. }
    assert (Hin' : In r' (survivors texts)).
    { eapply Permutation_in; [apply Permutation_sym, Hs|].
      apply first_shortest_In, Hr'. }
    pose proof (first_shortest_least _ _ _ Hr Hin').
    pose proof (first_shortest_least _ _ _ Hr' Hin).
    assert (Hlen : length r' = length r) by lia.
    split; [exact Hlen|]. intros Hu. apply Hu; assumption.
  - exfalso. rewrite Hnil' in Hs. apply Permutation_sym, Permutation_nil in Hs.
    rewrite Hs in Hr. apply first_shortest_In in Hr. exact Hr.
  - exfalso. rewrite Hnil in Hs. apply Permutation_nil in Hs.
    rewrite Hs in Hr'. apply first_shortest_In in Hr'. exact Hr'.
  - exists (fallback name), (fallback name). auto.
Qed.

Lemma text_order_breaks_ties_only_witness :
  exists holder holder',
    extract_copyright (map VStr [L "Copyright Alice"; L "Copyright Carol"])
      (VStr (L "pkg")) = Ok holder
    /\ extract_copyright (map VStr [L "Copyright Carol"; L "Copyright Alice"])
         (VStr (L "pkg")) = Ok holder'
    /\ length holder' = length holder
    /\ ((forall c, In c (survivors [L "Copyright Alice"; L "Copyright Carol"])
                   -> length c = length holder -> c = holder) ->
        holder' = holder).
Proof.
  apply text_order_breaks_ties_only. apply perm_swap.
Defined.

(** ** The keys of the dictionary *)

Lemma existsb_map_fst (n : value) (components : odict) :
  existsb (fun k => key_eqb k n) (map fst components)
  = existsb (fun item => key_eqb (fst item) n) components.
Proof.
  induction components as [|item rest IH]; simpl; [reflexivity|].
  rewrite IH. reflexivity.
Qed.

Lemma contains_Ok (components : odict) (key : value) (b : bool) :
  contains components key = Ok b ->
  existsb (fun k => key_eqb k key) (map fst components) = b.
Proof.
  unfold contains. destruct (hashable key); [|discriminate].
  intros H. injection H as <-. apply existsb_map_fst.
Qed.

Lemma keep_first_length (seen names : list value) :
  length (keep_first seen names) <= length names.
Proof.
  revert seen. induction names as [|n rest IH]; intros seen; simpl.
  - apply Nat.le_refl.
  - destruct (existsb _ seen); simpl.
    + apply Nat.le_le_succ_r, IH.
    + apply le_n_S, IH.
Qed.

Lemma visit_all_keys (libs : list value) (components out : odict) :
  visit_all components libs = Ok out ->
  exists names,
    Forall2 (fun lib n => name_of lib = Ok n) libs names
    /\ map fst out
       = map fst components ++ keep_first (map fst components) names.
Proof.
  revert components.
  induction libs as [|lib libs IH]; intros components; cbn [visit_all].
  - intros H. injection H as <-. exists []. split; [constructor|].
    simpl. rewrite app_nil_r. reflexivity.
  - destruct (visit components lib) as [mid|] eqn:Ev; cbn [bind];
      [|discriminate].
    intros Hrest. destruct (IH _ Hrest) as (names & Hnames & Hkeys).
    destruct (visit_Ok _ _ _ Ev)
      as (name & En & [[Hc ->] | (Hc & s & _ & _ & ->)]);
      exists (name :: names); (split; [constructor; assumption|]);
      cbn [keep_first]; rewrite (contains_Ok _ _ _ Hc).
    + exact Hkeys.
    + rewrite Hkeys, map_app. cbn [map fst]. rewrite <- app_assoc.
      reflexivity.
Qed.

(** X8.  The keys of the dictionary that [parse_yml_to_csv] returns are the
    component names of the entries in the order of their first occurrence,
    each once; there are no more of them than entries. *)
Theorem keys_in_first_occurrence_order (data : value) (libs : list value)
    (components : odict) :
  entries data = Ok libs ->
  parse_yml_to_csv data = Ok components ->
  exists names,
    Forall2 (fun lib n => name_of lib = Ok n) libs names
    /\ map fst components = keep_first [] names
    /\ length components <= length libs.
Proof.
  intros Hentries Hparse.
  rewrite parse_entries, Hentries in Hparse. cbn [bind] in Hparse.
  destruct (visit_all_keys _ _ _ Hparse) as (names & Hnames & Hkeys).
  exists names. split; [exact Hnames|]. split; [exact Hkeys|].
  rewrite <- (length_map fst), Hkeys. simpl.
  rewrite (Forall2_length Hnames). apply keep_first_length.
Qed.

Lemma keys_in_first_occurrence_order_witness :
  exists names,
    Forall2 (fun lib n => name_of lib = Ok n)
      [anyhow_1_0; serde_1_0; serde_1_1] names
    /\ map fst serde_components = keep_first [] names
    /\ length serde_components <= length [anyhow_1_0; serde_1_0; serde_1_1].
Proof.
  apply (keys_in_first_occurrence_order serde_manifest).
  - reflexivity.
  - vm_compute. reflexivity.
Defined.

(** ** Entries that are skipped, entries that are not mappings *)

Lemma key_eqb_hashable (k n : value) :
  key_eqb k n = true -> hashable n = true.
Proof.
  revert n.
  induction k as [|b|z|f|s|b|t|l|a IHa b IHb|l|d]; intros n;
    destruct n as [|b'|z'|f'|s'|b'|t'|l'|a' b'|l'|d'];
    try (destruct f as [m e|g|o]); try (destruct f' as [m' e'|g'|o']);
    simpl; try discriminate; try reflexivity.
  intros H. apply andb_true_iff in H. destruct H as [Ha Hb].
  rewrite (IHa _ Ha), (IHb _ Hb). reflexivity.
Qed.

Lemma lookup_existsb (key : value) (components : odict) (s : summary) :
  lookup key components = Some s ->
  existsb (fun item => key_eqb (fst item) key) components = true.
Proof.
  unfold lookup. induction components as [|item rest IH]; simpl.
  - discriminate.
  - destruct (key_eqb (fst item) key); [reflexivity | exact IH].
Qed.

Lemma visit_seen (components : odict) (d : list (value * value))
    (s : summary) :
  lookup (field d (L "package_name") (VStr [])) components = Some s ->
  visit components (VDict d) = Ok components.
Proof.
  intros Hl. apply lookup_existsb in Hl.
  rewrite visit_step. unfold name_of. rewrite get_field. cbn [bind].
  unfold contains.
  assert (Hh : hashable (field d (L "package_name") (VStr [])) = true).
  { apply existsb_exists in Hl. destruct Hl as (item & _ & Hk).
    eapply key_eqb_hashable. exact Hk. }
  rewrite Hh, Hl. reflexivity.
Qed.

(** X9.  An entry whose name is a component already is skipped before its
    license list is read: after a manifest that loads, one more mapping of
    a name that is in the dictionary changes nothing, whatever its other
    fields hold. *)
Theorem repeated_name_unread (data data' : value) (libs : list value)
    (d : list (value * value)) (components : odict) (s : summary) :
  entries data = Ok libs ->
  entries data' = Ok (libs ++ [VDict d]) ->
  parse_yml_to_csv data = Ok components ->
  lookup (field d (L "package_name") (VStr [])) components = Some s ->
  parse_yml_to_csv data' = Ok components.
Proof.
  intros He He' Hparse Hl.
  rewrite parse_entries, He in Hparse. cbn [bind] in Hparse.
  rewrite parse_entries, He'. cbn [bind].
  rewrite visit_all_app, Hparse. cbn [bind visit_all].
  rewrite (visit_seen _ _ _ Hl). reflexivity.
Qed.

Lemma repeated_name_unread_witness :
  parse_yml_to_csv serde_manifest_again = Ok serde_components.
Proof.
  apply (repeated_name_unread serde_manifest serde_manifest_again
           [anyhow_1_0; serde_1_0; serde_1_1]
           [(text "package_name", text "serde"); (text "licenses", VNone)]
           serde_components
           (Summary (text "serde") (text "https://github.com/serde-rs/serde")
              (text "MIT") (text "The Rust Project Developers"))).
  - reflexivity.
  - reflexivity.
  - vm_compute. reflexivity.
  - vm_compute. reflexivity.
Defined.

Lemma visit_all_not_mapping (libs : list value) (lib : value) :
  In lib libs ->
  (forall d, lib <> VDict d) ->
  forall components, exists e, visit_all components libs = Raise e.
Proof.
  intros Hin Hn. induction libs as [|x libs IH]; [destruct Hin|].
  intros components. cbn [visit_all]. destruct Hin as [-> | Hin].
  - exists AttributeError.
    destruct lib; try reflexivity. exfalso. apply (Hn d). reflexivity.
  - destruct (visit components x) as [mid|e]; cbn [bind].
    + apply (IH Hin).
    + exists e. reflexivity.
Qed.

(** X10.  An entry that is not a mapping makes the load of the whole
    manifest raise, wherever it stands among the entries, and [main] ends
    with that exception. *)
Theorem entry_not_mapping_fails (data : value) (libs : list value)
    (lib : value) :
  entries data = Ok libs ->
  In lib libs ->
  (forall d, lib <> VDict d) ->
  exists e,
    parse_yml_to_csv data = Raise e /\ main (Some data) = Raise e.
Proof.
  intros He Hin Hn. unfold main. rewrite parse_entries, He. cbn [bind].
  destruct (visit_all_not_mapping _ _ Hin Hn []) as (e & ->).
  exists e. split; reflexivity.
Qed.

Lemma entry_not_mapping_fails_witness :
  exists e,
    parse_yml_to_csv stray_manifest = Raise e
    /\ main (Some stray_manifest) = Raise e.
Proof.
  apply (entry_not_mapping_fails stray_manifest
           [anyhow_1_0; text "serde"] (text "serde")).
  - reflexivity.
  - right. left. reflexivity.
  - intros d H. discriminate H.
Defined.

(** ** The summaries of the dictionary *)

(** X11.  Every summary of the dictionary that [parse_yml_to_csv] returns
    holds the fields of one entry as they stand: its component is its key
    and the entry's name, its origin and license are the entry's repository
    and license (the empty string when missing), and its copyright is the
    string that [extract_copyright] returns for the texts of the entry's
    license objects and its name.  That string is never empty, so that the
    text of lines 103-111 never takes its place. *)
Theorem summaries_hold_entry_fields (data : value) (libs : list value)
    (components : odict) :
  entries data = Ok libs ->
  parse_yml_to_csv data = Ok components ->
  Forall
    (fun item =>
       exists d licenses holder,
         In (VDict d) libs
         /\ iterate (field d (L "licenses") (VList [])) = Ok licenses
         /\ extract_copyright (map text_or_empty licenses) (fst item)
            = Ok holder
         /\ holder <> []
         /\ fst item = field d (L "package_name") (VStr [])
         /\ snd item
            = Summary (fst item)
                (field d (L "repository") (VStr []))
                (field d (L "license") (VStr []))
                (VStr holder))
    components.
Proof.
  intros He Hparse.
  rewrite parse_entries, He in Hparse. cbn [bind] in Hparse.
  destruct (visit_all_Ok _ _ _ Hparse) as (added & -> & Hadded & _).
  simpl. eapply Forall_impl; [|exact Hadded].
  intros item (lib & Hin & Hname & Hcomp & Hs).
  destruct (summarise_fields _ _ Hs)
    as (d & lics & holder & -> & Hi & Hx & Hne & E).
  rewrite E in Hcomp. cbn [component] in Hcomp.
  exists d, lics, holder. split; [exact Hin|]. split; [exact Hi|].
  split; [rewrite <- Hcomp; exact Hx|]. split.
  - intros ->. discriminate Hne.
  - split; [symmetry; exact Hcomp|]. rewrite <- Hcomp. exact E.
Qed.

Lemma summaries_hold_entry_fields_witness :
  Forall
    (fun item =>
       exists d licenses holder,
         In (VDict d) [anyhow_1_0; serde_1_0; serde_1_1]
         /\ iterate (field d (L "licenses") (VList [])) = Ok licenses
         /\ extract_copyright (map text_or_empty licenses) (fst item)
            = Ok holder
         /\ holder <> []
         /\ fst item = field d (L "package_name") (VStr [])
         /\ snd item
            = Summary (fst item)
                (field d (L "repository") (VStr []))
                (field d (L "license") (VStr []))
                (VStr holder))
    serde_components.
Proof.
  apply (summaries_hold_entry_fields serde_manifest).
  - reflexivity.
  - vm_compute. reflexivity.
Defined.

(** ** When the writer raises *)

(** The key of a summary cannot be computed when its component is neither
    a string nor bytes. *)
Lemma keyed_Raise (xs : list summary) (e : exn) :
  keyed xs = Raise e ->
  e = AttributeError /\ Exists (fun x => no_text_method (component x)) xs.
Proof.
  induction xs as [|x xs IH]; cbn [keyed]; [discriminate|].
  unfold sort_key.
  destruct (component x) eqn:Ec; cbn [bind];
    try (intros H; injection H as <-; split; [reflexivity|];
         apply Exists_cons_hd; rewrite Ec;
         split; intros (s' & Hs); discriminate Hs);
    (destruct (keyed xs); cbn [bind]; [discriminate|];
     intros H; injection H as <-;
     destruct (IH eq_refl) as [-> Hex];
     split; [reflexivity | apply Exists_cons_tl, Hex]).
Qed.

(** A key that is bytes comes from a component that is bytes. *)
Lemma keyed_bytes (xs : list summary) (ks : list (sortkey * summary)) :
  keyed xs = Ok ks ->
  Exists (fun kx => exists b, fst kx = KBytes b) ks ->
  Exists (fun x => is_bytes (component x)) xs.
Proof.
  revert ks. induction xs as [|x xs IH]; intros ks; cbn [keyed].
  - intros H. injection H as <-. intros Hex. inversion Hex.
  - unfold sort_key.
    destruct (component x) eqn:Ec; cbn [bind]; try discriminate;
      (destruct (keyed xs) as [ks'|]; cbn [bind]; [|discriminate];
       intros H; injection H as <-; intros Hex;
       inversion Hex as [? ? (b' & Hb) | ? ? Hex']; subst;
       [ try discriminate Hb;
         apply Exists_cons_hd; rewrite Ec; eexists; reflexivity
       | apply Exists_cons_tl, (IH ks' eq_refl Hex') ]).
Qed.

Section SortRaises.

Variable A : Type.

(** A comparison raises only between a string and bytes. *)
Lemma insert_keyed_Raise (kx : sortkey * A) (l : list (sortkey * A)) (e : exn) :
  insert_keyed kx l = Raise e ->
  e = TypeError /\ Exists (fun ky => exists b, fst ky = KBytes b) (kx :: l).
Proof.
  induction l as [|ky l IH]; cbn [insert_keyed]; [discriminate|].
  destruct (fst ky) as [s|b] eqn:Ey, (fst kx) as [t|c] eqn:Ex;
    cbn [key_ltb bind].
  - destruct (str_ltb s t); [|discriminate].
    destruct (insert_keyed kx l); cbn [bind]; [discriminate|].
    intros H. injection H as <-. destruct (IH eq_refl) as [-> Hex].
    split; [reflexivity|].
    inversion Hex as [? ? (b' & Hb) | ? ? Hex']; subst.
    + rewrite Ex in Hb. discriminate Hb.
    + apply Exists_cons_tl, Exists_cons_tl, Hex'.
  - intros H. injection H as <-. split; [reflexivity|].
    apply Exists_cons_hd. exists c. exact Ex.
  - intros H. injection H as <-. split; [reflexivity|].
    apply Exists_cons_tl, Exists_cons_hd. exists b. exact Ey.
  - destruct (bytes_ltb b c); [|discriminate].
    destruct (insert_keyed kx l); cbn [bind]; [discriminate|].
    intros H. injection H as <-. destruct (IH eq_refl) as [-> Hex].
    split; [reflexivity|]. apply Exists_cons_hd. exists c. exact Ex.
Qed.

Lemma sorted_Raise (l : list (sortkey * A)) (e : exn) :
  sorted l = Raise e ->
  e = TypeError /\ Exists (fun ky => exists b, fst ky = KBytes b) l.
Proof.
  induction l as [|kx l IH]; cbn [sorted]; [discriminate|].
  destruct (sorted l) as [done|e'] eqn:Es; cbn [bind].
  - intros H. apply insert_keyed_Raise in H. destruct H as [-> Hex].
    split; [reflexivity|].
    inversion Hex as [? ? Hb | ? ? Hex']; subst.
    + apply Exists_cons_hd, Hb.
    + apply Exists_cons_tl.
      apply Exists_exists in Hex'. destruct Hex' as (ky & Hin & Hb).
      apply Exists_exists. exists ky. split; [|exact Hb].
      eapply Permutation_in; [apply (sorted_Ok _ _ _ Es) | exact Hin].
  - intros H. injection H as <-. destruct (IH eq_refl) as [-> Hex].
    split; [reflexivity | apply Exists_cons_tl, Hex].
Qed.

End SortRaises.

(** What the receiver of [replace] is when the call raises. *)
Lemma escape_Raise (v : value) (e : exn) :
  escape v = Raise e ->
  (e = TypeError /\ bytes_or_date v)
  \/ (e = AttributeError /\ no_text_method v).
Proof.
  unfold escape.
  destruct v; try discriminate;
    intros H; injection H as <-;
    try (right; split; [reflexivity|];
         split; intros (s' & Hs); discriminate Hs).
  - left. split; [reflexivity | left; eexists; reflexivity].
  - left. split; [reflexivity | right; eexists; reflexivity].
Qed.

Lemma write_row_Raise (x : summary) (e : exn) :
  write_row x = Raise e ->
  (e = TypeError /\ Exists bytes_or_date (fields x))
  \/ (e = AttributeError /\ Exists no_text_method (fields x)).
Proof.
  unfold write_row, fields.
  destruct (escape (component x)) as [c|e1] eqn:E1; cbn [bind].
  2:{ intros H. injection H as <-.
      destruct (escape_Raise _ _ E1) as [[-> Hv] | [-> Hv]];
        [left | right]; (split; [reflexivity|]); apply Exists_cons_hd, Hv. }
  destruct (escape (origin x)) as [o|e2] eqn:E2; cbn [bind].
  2:{ intros H. injection H as <-.
      destruct (escape_Raise _ _ E2) as [[-> Hv] | [-> Hv]];
        [left | right]; (split; [reflexivity|]);
        apply Exists_cons_tl, Exists_cons_hd, Hv. }
  destruct (escape (license x)) as [l|e3] eqn:E3; cbn [bind].
  2:{ intros H. injection H as <-.
      destruct (escape_Raise _ _ E3) as [[-> Hv] | [-> Hv]];
        [left | right]; (split; [reflexivity|]);
        apply Exists_cons_tl, Exists_cons_tl, Exists_cons_hd, Hv. }
  destruct (escape (copyright x)) as [h|e4] eqn:E4; cbn [bind].
  2:{ intros H. injection H as <-.
      destruct (escape_Raise _ _ E4) as [[-> Hv] | [-> Hv]];
        [left | right]; (split; [reflexivity|]);
        apply Exists_cons_tl, Exists_cons_tl, Exists_cons_tl,
          Exists_cons_hd, Hv. }
  discriminate.
Qed.

Lemma write_rows_Raise (xs : list summary) (e : exn) :
  write_rows xs = Raise e ->
  (e = TypeError /\ Exists (fun x => Exists bytes_or_date (fields x)) xs)
  \/ (e = AttributeError
      /\ Exists (fun x => Exists no_text_method (fields x)) xs).
Proof.
  induction xs as [|x xs IH]; cbn [write_rows]; [discriminate|].
  destruct (write_row x) as [row|e'] eqn:Er; cbn [bind].
  - destruct (write_rows xs); cbn [bind]; [discriminate|].
    intros H. injection H as <-.
    destruct (IH eq_refl) as [[-> Hex] | [-> Hex]]; [left | right];
      (split; [reflexivity | apply Exists_cons_tl, Hex]).
  - intros H. injection H as <-.
    destruct (write_row_Raise _ _ Er) as [[-> Hex] | [-> Hex]];
      [left | right]; (split; [reflexivity | apply Exists_cons_hd, Hex]).
Qed.

Lemma Exists_field_component (P : value -> Prop) (xs : list summary) :
  Exists (fun x => P (component x)) xs ->
  Exists (fun x => Exists P (fields x)) xs.
Proof.
  intros H. eapply Exists_impl; [|exact H].
  intros x Hx. apply Exists_cons_hd, Hx.
Qed.

Lemma write_csv_Raise (components : odict) (e : exn) :
  write_csv components = Raise e ->
  (e = TypeError
   /\ Exists (fun x => Exists bytes_or_date (fields x)) (map snd components))
  \/ (e = AttributeError
      /\ Exists (fun x => Exists no_text_method (fields x))
           (map snd components)).
Proof.
  unfold write_csv.
  destruct (keyed (map snd components)) as [ks|e'] eqn:Ek; cbn [bind].
  2:{ intros H. injection H as <-.
      destruct (keyed_Raise _ _ Ek) as [-> Hex]. right.
      split; [reflexivity | apply Exists_field_component, Hex]. }
  destruct (sorted ks) as [ordered|e'] eqn:Es; cbn [bind].
  2:{ intros H. injection H as <-.
      destruct (sorted_Raise _ _ _ Es) as [-> Hex]. left.
      split; [reflexivity|].
      apply Exists_field_component.
      eapply Exists_impl; [|eapply keyed_bytes; eassumption].
      intros x Hx. left. exact Hx. }
  destruct (write_rows _) as [rows|e'] eqn:Er; cbn [bind]; [discriminate|].
  intros H. injection H as <-.
  assert (Hp : Permutation (map snd ordered) (map snd components)).
  { rewrite <- (keyed_Ok _ _ Ek).
    apply Permutation_map, (sorted_Ok _ _ _ Es). }
  destruct (write_rows_Raise _ _ Er) as [[-> Hex] | [-> Hex]];
    [left | right]; (split; [reflexivity|]);
    apply Exists_exists in Hex; destruct Hex as (x & Hin & Hx);
    apply Exists_exists; exists x;
    (split; [eapply Permutation_in; eassumption | exact Hx]).
Qed.

(** X12.  [write_csv] raises exactly when a summary has a field that is not
    a string.  It raises AttributeError only when a field is neither a string
    nor bytes, and TypeError only when a field is bytes or a date. *)
Theorem write_csv_raises_iff (components : odict) :
  ((exists e, write_csv components = Raise e)
   <-> ~ Forall textual (map snd components))
  /\ (write_csv components = Raise AttributeError ->
      Exists (fun x => Exists no_text_method (fields x)) (map snd components))
  /\ (write_csv components = Raise TypeError ->
      Exists (fun x => Exists bytes_or_date (fields x)) (map snd components)).
Proof.
  split; [split|split].
  - intros (e & H) Ht. rewrite (write_csv_textual _ Ht) in H. discriminate H.
  - intros Hn. destruct (write_csv components) as [doc|e] eqn:E.
    + exfalso. apply Hn. apply (write_csv_Ok _ _ E).
    + exists e. reflexivity.
  - intros H. destruct (write_csv_Raise _ _ H) as [[E _] | [_ Hex]];
      [discriminate E | exact Hex].
  - intros H. destruct (write_csv_Raise _ _ H) as [[_ Hex] | [E _]];
      [exact Hex | discriminate E].
Qed.

Lemma write_csv_raises_iff_witness :
  Exists (fun x => Exists no_text_method (fields x))
    (map snd null_origin_components)
  /\ Exists (fun x => Exists bytes_or_date (fields x))
       (map snd bytes_name_components)
  /\ Exists (fun x => Exists bytes_or_date (fields x))
       (map snd date_license_components).
Proof.
  split; [|split].
  - apply (proj1 (proj2 (write_csv_raises_iff null_origin_components))).
    vm_compute. reflexivity.
  - apply (proj2 (proj2 (write_csv_raises_iff bytes_name_components))).
    vm_compute. reflexivity.
  - apply (proj2 (proj2 (write_csv_raises_iff date_license_components))).
    vm_compute. reflexivity.
Defined.

(** ** Reading a row back *)

Lemma split_sep (sep : ascii) (f rest : str) :
  ~ In sep f -> split sep (f ++ sep :: rest) = f :: split sep rest.
Proof.
  induction f as [|c f IH]; intros Hno.
  - cbn [app split]. unfold chr_eqb. rewrite Ascii.eqb_refl. reflexivity.
  - cbn [app split].
    destruct (chr_eqb c sep) eqn:E.
    + apply chr_eqb_eq in E. subst c. simpl in Hno. tauto.
    + rewrite IH by (simpl in Hno; tauto). reflexivity.
Qed.

Lemma split_none (sep : ascii) (f : str) : ~ In sep f -> split sep f = [f].
Proof.
  induction f as [|c f IH]; intros Hno; [reflexivity|].
  cbn [split]. destruct (chr_eqb c sep) eqn:E.
  - apply chr_eqb_eq in E. subst c. simpl in Hno. tauto.
  - rewrite IH by (simpl in Hno; tauto). reflexivity.
Qed.

Lemma split_row_text (x : summary) :
  split "," (row_text x) = map (replace "," ";") (columns x).
Proof.
  unfold row_text, columns. cbn [map join].
  change (L ",") with [","%char]. cbn [app].
  rewrite !split_sep by apply replace_no_comma.
  rewrite split_none by apply replace_no_comma. reflexivity.
Qed.

(** X13.  A row that [write_csv] writes reads back: without its newline and
    split at the commas it gives the four fields of the summary with their
    commas turned into semicolons, and the four fields themselves when none
    of them holds a comma. *)
Theorem row_reads_back (x : summary) (row : str) :
  write_row x = Ok row ->
  exists txt,
    row = txt ++ [newline]
    /\ split "," txt = map (replace "," ";") (columns x)
    /\ (Forall (fun f => ~ In ","%char f) (columns x) ->
        split "," txt = columns x).
Proof.
  intros H. pose proof (write_row_Ok _ _ H) as Ht.
  rewrite (write_row_textual _ Ht) in H. injection H as <-.
  exists (row_text x). split; [reflexivity|].
  split; [apply split_row_text|].
  intros Hc. rewrite split_row_text.
  rewrite <- (map_id (columns x)) at 2. apply map_ext_in.
  intros f Hf. apply replace_absent.
  rewrite Forall_forall in Hc. apply Hc, Hf.
Qed.

Lemma row_reads_back_witness :
  exists txt,
    L "Bytes,https://github.com/tokio-rs/bytes,MIT,Carl Lerche" ++ [newline]
    = txt ++ [newline]
    /\ split "," txt
       = map (replace "," ";")
           (columns (Summary (text "Bytes")
                       (text "https://github.com/tokio-rs/bytes")
                       (text "MIT") (text "Carl Lerche")))
    /\ (Forall (fun f => ~ In ","%char f)
          (columns (Summary (text "Bytes")
                      (text "https://github.com/tokio-rs/bytes")
                      (text "MIT") (text "Carl Lerche"))) ->
        split "," txt
        = columns (Summary (text "Bytes")
                     (text "https://github.com/tokio-rs/bytes")
                     (text "MIT") (text "Carl Lerche"))).
Proof.
  apply (row_reads_back
           (Summary (text "Bytes") (text "https://github.com/tokio-rs/bytes")
              (text "MIT") (text "Carl Lerche"))).
  vm_compute. reflexivity.
Defined.

(** X14.  When no field of a summary holds a newline, the lines of the
    document that [write_csv] writes are the header and one line per
    summary, the text of its row. *)
Theorem document_lines (components : odict) :
  Forall textual (map snd components) ->
  Forall (fun x => Forall (fun f => ~ In newline f) (columns x))
    (map snd components) ->
  exists rows document,
    write_csv components = Ok document
    /\ Permutation rows (map snd components)
    /\ lines document
       = L "Component,Origin,License,Copyright" :: map row_text rows
    /\ length (lines document) = S (length components).
Proof.
  intros Ht Hn.
  exists (written_order (map snd components)). eexists.
  split; [apply (write_csv_textual _ Ht)|].
  split; [apply written_order_perm|].
  assert (Hl : lines (header
                      ++ concat (map line_of
                                   (written_order (map snd components))))
               = L "Component,Origin,License,Copyright"
                 :: map row_text (written_order (map snd components))).
  { apply rows_are_lines.
    eapply Permutation_Forall; [apply Permutation_sym, written_order_perm|].
    exact Hn. }
  split; [exact Hl|]. rewrite Hl. cbn [length]. f_equal.
  rewrite length_map, (Permutation_length (written_order_perm _)).
  apply length_map.
Qed.

Lemma document_lines_witness :
  exists rows document,
    write_csv three_components = Ok document
    /\ Permutation rows (map snd three_components)
    /\ lines document
       = L "Component,Origin,License,Copyright" :: map row_text rows
    /\ length (lines document) = S (length three_components).
Proof.
  apply (document_lines three_components).
  - simpl. textual_list.
  - vm_compute. repeat constructor; intuition discriminate.
Defined.

(** ** The sort keeps equal keys in order *)

Lemma str_ltb_irrefl (a : str) : str_ltb a a = false.
Proof.
  induction a as [|x a IH]; simpl; [reflexivity|].
  rewrite Nat.ltb_irrefl, Nat.eqb_refl, IH. reflexivity.
Qed.

Lemma place_filter (A : Type) (k : str) (kx : str * A)
    (l : list (str * A)) :
  filter (fun ky => str_eqb (fst ky) k) (place kx l)
  = filter (fun ky => str_eqb (fst ky) k) (kx :: l).
Proof.
  induction l as [|ky l IH]; [reflexivity|].
  cbn [place]. destruct (str_ltb (fst ky) (fst kx)) eqn:E;
    [|reflexivity].
  cbn [filter] in *. rewrite IH.
  destruct (str_eqb (fst ky) k) eqn:Ey; [|reflexivity].
  destruct (str_eqb (fst kx) k) eqn:Ex; [|reflexivity].
  apply str_eqb_eq in Ey, Ex. rewrite Ey, Ex, str_ltb_irrefl in E.
  discriminate E.
Qed.

Lemma arranged_filter (A : Type) (k : str) (l : list (str * A)) :
  filter (fun ky => str_eqb (fst ky) k) (arranged l)
  = filter (fun ky => str_eqb (fst ky) k) l.
Proof.
  induction l as [|kx l IH]; [reflexivity|].
  cbn [arranged fold_right]. fold (arranged l).
  rewrite place_filter. cbn [filter]. rewrite IH. reflexivity.
Qed.

Lemma filter_map_snd (A B : Type) (f : B -> bool) (l : list (A * B)) :
  filter f (map snd l) = map snd (filter (fun p => f (snd p)) l).
Proof.
  induction l as [|p l IH]; simpl; [reflexivity|].
  destruct (f (snd p)); simpl; rewrite IH; reflexivity.
Qed.

Lemma written_order_filter (k : str) (xs : list summary) :
  filter (has_key k) (written_order xs) = filter (has_key k) xs.
Proof.
  unfold written_order. rewrite filter_map_snd.
  rewrite (filter_ext_in (fun p => has_key k (snd p))
             (fun p => str_eqb (fst p) k)).
  - rewrite arranged_filter. induction xs as [|x xs IH]; [reflexivity|].
    cbn [map filter fst]. fold (has_key k x).
    destruct (has_key k x); cbn [map snd]; rewrite IH; reflexivity.
  - intros p Hp.
    apply (Permutation_in _ (arranged_perm _ _)) in Hp.
    apply in_map_iff in Hp. destruct Hp as (x & <- & _). reflexivity.
Qed.

(** X15.  The sort of line 129 is stable: the summaries whose names are
    equal but for case are written in the order the dictionary holds
    them. *)
Theorem equal_keys_keep_order (components : odict) :
  Forall textual (map snd components) ->
  exists rows,
    write_csv components = Ok (header ++ concat (map line_of rows))
    /\ forall k,
         filter (has_key k) rows = filter (has_key k) (map snd components).
Proof.
  intros Ht. exists (written_order (map snd components)).
  split; [apply (write_csv_textual _ Ht)|].
  intros k. apply written_order_filter.
Qed.

Lemma equal_keys_keep_order_witness :
  exists rows,
    write_csv mixed_case_components = Ok (header ++ concat (map line_of rows))
    /\ forall k,
         filter (has_key k) rows
         = filter (has_key k) (map snd mixed_case_components).
Proof.
  apply (equal_keys_keep_order mixed_case_components).
  simpl. textual_list.
Defined.

(** ** The document and the order of the dictionary *)

Lemma ord_inj (x y : ascii) : ord x = ord y -> x = y.
Proof.
  unfold ord. intros H.
  rewrite <- (ascii_nat_embedding x), <- (ascii_nat_embedding y), H.
  reflexivity.
Qed.

Lemma str_le_antisym (a b : str) : str_le a b -> str_le b a -> a = b.
Proof.
  unfold str_le. revert b.
  induction a as [|x a IH]; intros [|y b]; simpl; try congruence.
  destruct (Nat.ltb_spec (ord y) (ord x)), (Nat.ltb_spec (ord x) (ord y)),
    (Nat.eqb_spec (ord y) (ord x)), (Nat.eqb_spec (ord x) (ord y));
    simpl; try lia; try congruence.
  intros H1 H2. f_equal; [apply ord_inj; assumption | apply IH; assumption].
Qed.

Lemma sorted_unique (A : Type) (l1 l2 : list (str * A)) :
  StronglySorted key_le l1 ->
  StronglySorted key_le l2 ->
  Permutation l1 l2 ->
  NoDup (map fst l1) ->
  l1 = l2.
Proof.
  intros H1. revert l2.
  induction H1 as [|a l1 Hs1 IH Ha]; intros l2 H2 Hp Hnd.
  - apply Permutation_nil in Hp. congruence.
  - destruct H2 as [|b l2 Hs2 Hb].
    + apply Permutation_sym, Permutation_nil in Hp. discriminate.
    + assert (E : a = b).
      { assert (Hina : In a (b :: l2))
          by (eapply Permutation_in; [exact Hp | left; reflexivity]).
        assert (Hinb : In b (a :: l1))
          by (eapply Permutation_in;
              [apply Permutation_sym, Hp | left; reflexivity]).
        destruct Hina as [Hab | Hina]; [congruence|].
        destruct Hinb as [Hba | Hinb]; [congruence|].
        exfalso. rewrite Forall_forall in Ha, Hb.
        pose proof (str_le_antisym _ _ (Ha _ Hinb) (Hb _ Hina)) as Hk.
        simpl in Hnd. inversion Hnd as [|? ? Hnot _]; subst.
        apply Hnot. rewrite Hk. apply in_map, Hinb. }
      subst b. f_equal. apply IH.
      * exact Hs2.
      * eapply Permutation_cons_inv. exact Hp.
      * simpl in Hnd. inversion Hnd; assumption.
Qed.

Lemma written_order_canonical (xs ys : list summary) :
  Permutation xs ys ->
  NoDup (map key_of xs) ->
  written_order xs = written_order ys.
Proof.
  intros Hp Hnd. unfold written_order. f_equal.
  apply sorted_unique; try apply arranged_sorted.
  - eapply perm_trans; [apply arranged_perm|].
    eapply perm_trans; [|apply Permutation_sym, arranged_perm].
    apply Permutation_map, Hp.
  - eapply Permutation_NoDup.
    + apply Permutation_map, Permutation_sym, arranged_perm.
    + rewrite map_map. simpl. exact Hnd.
Qed.

(** X16.  When the lower-cased names of the summaries are pairwise
    different, the document depends on the summaries only, not on the order
    in which the dictionary holds them. *)
Theorem document_independent_of_order (components components' : odict) :
  Forall textual (map snd components) ->
  Permutation (map snd components) (map snd components') ->
  NoDup (map key_of (map snd components)) ->
  write_csv components' = write_csv components.
Proof.
  intros Ht Hp Hnd.
  assert (Ht' : Forall textual (map snd components')).
  { eapply Permutation_Forall; [exact Hp | exact Ht]. }
  rewrite (write_csv_textual _ Ht), (write_csv_textual _ Ht').
  rewrite (written_order_canonical _ _ Hp Hnd). reflexivity.
Qed.

Lemma document_independent_of_order_witness :
  write_csv (rev three_components) = write_csv three_components.
Proof.
  apply document_independent_of_order.
  - simpl. textual_list.
  - rewrite map_rev. apply Permutation_rev.
  - vm_compute. repeat constructor; simpl; intuition discriminate.
Defined.

(** ** From the manifest to the document *)

Lemma entry_typed_textual (d : list (value * value)) (holder : str) :
  entry_typed (VDict d) ->
  textual (Summary (field d (L "package_name") (VStr []))
             (field d (L "repository") (VStr []))
             (field d (L "license") (VStr []))
             (VStr holder)).
Proof.
  intros ((d0 & E0 & Hn & _) & d1 & E1 & Hr & Hl).
  injection E0 as <-. injection E1 as <-.
  destruct (entry_ok_name _ Hn) as (n & ->).
  unfold present_ok, field in *.
  destruct (dict_find (L "repository") d) as [r|];
    [destruct Hr as (r' & ->)|];
    (destruct (dict_find (L "license") d) as [l|];
     [destruct Hl as (l' & ->)|]);
    repeat eexists.
Qed.

(** X17.  On a manifest whose entries are mappings with strings for the
    name, the repository and the license that they give, and a sequence of
    license objects with string texts, [main] does not raise: it ends with
    exit code 0 and writes the header and one row for each component of the
    dictionary. *)
Theorem main_on_typed_manifest (data : value) (libs : list value) :
  entries data = Ok libs ->
  Forall entry_typed libs ->
  exists components rows,
    parse_yml_to_csv data = Ok components
    /\ Permutation rows (map snd components)
    /\ length components <= length libs
    /\ main (Some data)
       = Ok (0, Some (L "Component,Origin,License,Copyright" ++ [newline]
                      ++ concat (map line_of rows))).
Proof.
  intros He Ht.
  assert (Hok : Forall entry_ok libs).
  { eapply Forall_impl; [|exact Ht]. intros lib [H _]. exact H. }
  destruct (visit_all_entry_ok libs [] Hok) as (components & Hrun).
  assert (Hparse : parse_yml_to_csv data = Ok components).
  { rewrite parse_entries, He. exact Hrun. }
  assert (Htext : Forall textual (map snd components)).
  { destruct (visit_all_Ok _ _ _ Hrun) as (added & -> & Hadded & _).
    simpl. apply Forall_map. eapply Forall_impl; [|exact Hadded].
    intros item (lib & Hin & _ & _ & Hs).
    destruct (summarise_fields _ _ Hs)
      as (d & lics & holder & -> & _ & _ & _ & ->).
    apply entry_typed_textual.
    rewrite Forall_forall in Ht. apply Ht, Hin. }
  exists components, (written_order (map snd components)).
  split; [exact Hparse|]. split; [apply written_order_perm|]. split.
  - destruct (visit_all_keys _ _ _ Hrun) as (names & Hnames & Hkeys).
    rewrite <- (length_map fst), Hkeys. simpl.
    rewrite (Forall2_length Hnames). apply keep_first_length.
  - unfold main. rewrite Hparse. cbn [bind].
    rewrite (write_csv_textual _ Htext). cbn [bind]. unfold header.
    rewrite <- app_assoc. reflexivity.
Qed.

Lemma main_on_typed_manifest_witness :
  exists components rows,
    parse_yml_to_csv serde_manifest = Ok components
    /\ Permutation rows (map snd components)
    /\ length components <= length [anyhow_1_0; serde_1_0; serde_1_1]
    /\ main (Some serde_manifest)
       = Ok (0, Some (L "Component,Origin,License,Copyright" ++ [newline]
                      ++ concat (map line_of rows))).
Proof.
  apply (main_on_typed_manifest serde_manifest).
  - reflexivity.
  - assert (H : forall n v r l ts,
               entry_typed (entry n v r l ts)).
    { intros n v r l ts. unfold entry. split.
      - eexists. split; [reflexivity|]. split.
        + eexists. reflexivity.
        + eexists. split; [reflexivity|].
          apply Forall_map, Forall_forall. intros t _.
          eexists. split; [reflexivity|]. left. eexists. reflexivity.
      - eexists. split; [reflexivity|]. split; eexists; reflexivity. }
    repeat constructor; apply H.
Defined.
